(** * Flicker-noise DPI-C generators: batch playback and Voss-McCartney streaming

    Shallow embedding of [dpi/dpi_flicker_noise_batch.c] and
    [dpi/dpi_flicker_noise.c].  The C statics of each translation unit become
    a record that every call takes and returns; what the C library and the
    file system contribute ([fopen]/[fread], [srand]/[rand]) is an explicit
    argument or a section variable. *)

From Stdlib Require Import String.
From Stdlib.Strings Require Import Byte.
From Stdlib Require Import ZArith List Lia Bool PeanoNat.
From Stdlib Require Import Floats Uint63.
Import ListNotations.

(** ** Batch playback: [dpi_flicker_noise_batch.c] *)

Module Batch.

(** [#define MAX_SAMPLES 4096], [#define NOISE_DATA_FILE ...] *)
Definition MAX_SAMPLES : Z := 4096.
Definition NOISE_DATA_FILE : string := "dpi/flicker_noise_batch.bin".
Definition sizeof_double : nat := 8.

(** The batch generator never computes with its samples, it only moves them
    from the file to the caller.  A [double] is therefore kept as its object
    representation, the 8 bytes the file held. *)
Definition double : Type := list byte.

Definition zero_double : double := repeat x00 sizeof_double.

(** What [fopen(NOISE_DATA_FILE, "rb")] finds when it is called: [None] when
    the file cannot be opened, otherwise the bytes of the file. *)
Definition resource : Type := option (list byte).

(** One argument of a [fprintf] call. *)
Inductive arg : Type :=
| AInt (z : Z)
| AStr (s : string)
| ADouble (d : double)
| AFloat (f : float).

(** One [fprintf(stderr, ...)] call: the format as written in the source and
    the evaluated arguments. *)
Record fprintf_call : Type := Fprintf { format : string; args : list arg }.

(** The statics of the translation unit, the [call_count] of the wrapper and
    everything written to [stderr] so far. *)
Record state : Type := State {
  preloaded_noise : list byte;
  current_index : Z;
  initialized : bool;
  num_samples_loaded : Z;
  call_count : Z;
  stderr : list fprintf_call
}.

(** C zero-initialises statics. *)
Definition initial_state : state :=
  {| preloaded_noise := repeat x00 (Z.to_nat MAX_SAMPLES * sizeof_double);
     current_index := 0;
     initialized := false;
     num_samples_loaded := 0;
     call_count := 0;
     stderr := [] |}.

(** [fread(buf, size, nmemb, f)] on a freshly opened file: the bytes that are
    there, at most [size * nmemb] of them, are stored at the start of [buf]
    (also those of a trailing incomplete element), and the number of complete
    elements is returned. *)
Definition fread (buf : list byte) (size nmemb : nat) (file : list byte)
  : list byte * Z :=
  let k := Nat.min (length file) (size * nmemb) in
  (firstn k file ++ skipn k buf, Z.of_nat (k / size)).

(** [memset(preloaded_noise, 0, sizeof(preloaded_noise))] *)
Definition memset_zero (buf : list byte) : list byte :=
  repeat x00 (length buf).

(** [preloaded_noise[i]]: [None] stands for an access outside the array. *)
Definition read_double (buf : list byte) (i : Z) : option double :=
  if (0 <=? i)%Z && (i <? MAX_SAMPLES)%Z
  then Some (firstn sizeof_double (skipn (Z.to_nat i * sizeof_double) buf))
  else None.

Definition log (s : state) (l : list fprintf_call) : state :=
  {| preloaded_noise := preloaded_noise s;
     current_index := current_index s;
     initialized := initialized s;
     num_samples_loaded := num_samples_loaded s;
     call_count := call_count s;
     stderr := stderr s ++ l |}.

(** The block printed when the file cannot be opened (lines 64-72). *)
Definition cannot_open_diagnostic : list fprintf_call :=
  [ Fprintf "\n" [];
    Fprintf "========================================\n" [];
    Fprintf "ERROR: Cannot open %s\n" [AStr NOISE_DATA_FILE];
    Fprintf "========================================\n" [];
    Fprintf "Run the following command to generate:\n" [];
    Fprintf "  uv run python3 scripts/generate_flicker_noise_batch.py\n" [];
    Fprintf "\n" [];
    Fprintf "Falling back to zeros for all samples.\n" [];
    Fprintf "========================================\n" [] ].

(** The block printed after a short read (lines 87-95). *)
Definition partial_read_diagnostic (n : Z) : list fprintf_call :=
  [ Fprintf "\n" [];
    Fprintf "========================================\n" [];
    Fprintf "WARNING: Partial binary file read\n" [];
    Fprintf "========================================\n" [];
    Fprintf "Loaded %d samples (expected %d)\n" [AInt n; AInt MAX_SAMPLES];
    Fprintf "Binary file may be truncated or corrupted.\n" [];
    Fprintf "Re-run: uv run python3 scripts/generate_flicker_noise_batch.py\n" [];
    Fprintf "========================================\n" [] ].

(** The messages after a full read (lines 98-106), with the preview loop
    [for (i = 0; i < 10 && i < num_samples_loaded; i++)]. *)
Definition preview (buf : list byte) (n : Z) : list fprintf_call :=
  map (fun i : nat =>
         Fprintf "  [%3d] %11.6f\n"
           [AInt (Z.of_nat i);
            ADouble (firstn sizeof_double (skipn (i * sizeof_double) buf))])
      (seq 0 (Nat.min 10 (Z.to_nat n))).

Definition loaded_diagnostic (buf : list byte) (n : Z) : list fprintf_call :=
  Fprintf "[DPI-C INFO] Loaded %d noise samples from %s (%.1f KB)\n"
    [AInt n; AStr NOISE_DATA_FILE;
     AFloat (PrimFloat.div
               (PrimFloat.of_uint63 (Uint63.of_Z (n * Z.of_nat sizeof_double)%Z))
               1024%float)]
  :: Fprintf "[DPI-C DEBUG] First 10 samples from binary:\n" []
  :: preview buf n.

(** [static void init_flicker_noise_batch()] *)
Definition init_flicker_noise_batch (f : resource) (s : state) : state :=
  match f with
  | None =>
      {| preloaded_noise := memset_zero (preloaded_noise s);
         current_index := current_index s;
         initialized := true;
         num_samples_loaded := MAX_SAMPLES;
         call_count := call_count s;
         stderr := stderr s ++ cannot_open_diagnostic |}
  | Some file =>
      let '(buf, n) :=
        fread (preloaded_noise s) sizeof_double (Z.to_nat MAX_SAMPLES) file in
      {| preloaded_noise := buf;
         current_index := 0;
         initialized := true;
         num_samples_loaded := n;
         call_count := call_count s;
         stderr := stderr s ++
                   (if (n <? MAX_SAMPLES)%Z then partial_read_diagnostic n
                    else loaded_diagnostic buf n) |}
  end.

(** [if (!initialized) { init_flicker_noise_batch(); }] *)
Definition ensure_initialized (f : resource) (s : state) : state :=
  if negb (initialized s) then init_flicker_noise_batch f s else s.

(** [if (current_index >= num_samples_loaded) { current_index = 0; }] *)
Definition wrap_index (s : state) : state :=
  if (current_index s >=? num_samples_loaded s)%Z
  then {| preloaded_noise := preloaded_noise s;
          current_index := 0;
          initialized := initialized s;
          num_samples_loaded := num_samples_loaded s;
          call_count := call_count s;
          stderr := stderr s |}
  else s.

(** The state in which [preloaded_noise[current_index++]] is evaluated; its
    [current_index] is the cursor at the moment of the read. *)
Definition at_read (f : resource) (s : state) : state :=
  wrap_index (ensure_initialized f s).

(** [return preloaded_noise[current_index++];] *)
Definition read_and_advance (s : state) : option (double * state) :=
  match read_double (preloaded_noise s) (current_index s) with
  | Some d =>
      Some (d, {| preloaded_noise := preloaded_noise s;
                  current_index := (current_index s + 1)%Z;
                  initialized := initialized s;
                  num_samples_loaded := num_samples_loaded s;
                  call_count := call_count s;
                  stderr := stderr s |})
  | None => None
  end.

(** [double dpi_flicker_noise_batch(void)]; [f] is what the file system holds
    at the time of the call. *)
Definition dpi_flicker_noise_batch (f : resource) (s : state)
  : option (double * state) :=
  read_and_advance (at_read f s).

(** [double dpi_flicker_noise(void)] of the batch file: the wrapper that logs
    its first 30 calls. *)
Definition dpi_flicker_noise (f : resource) (s : state)
  : option (double * state) :=
  match dpi_flicker_noise_batch f s with
  | Some (result, s1) =>
      let s2 :=
        if (call_count s1 <? 30)%Z
        then log s1 [Fprintf "[DPI-C CALL %3d] index=%d, value=%.6f\n"
                       [AInt (call_count s1); AInt (current_index s1 - 1)%Z;
                        ADouble result]]
        else s1 in
      Some (result, {| preloaded_noise := preloaded_noise s2;
                       current_index := current_index s2;
                       initialized := initialized s2;
                       num_samples_loaded := num_samples_loaded s2;
                       call_count := (call_count s2 + 1)%Z;
                       stderr := stderr s2 |})
  | None => None
  end.

(** A sequence of calls, one per element of [env]: the element is what the
    file system holds during that call.  The samples come back in call
    order. *)
Fixpoint run (env : list resource) (s : state) : option (list double * state) :=
  match env with
  | [] => Some ([], s)
  | f :: env' =>
      match dpi_flicker_noise_batch f s with
      | Some (d, s1) =>
          match run env' s1 with
          | Some (ds, s2) => Some (d :: ds, s2)
          | None => None
          end
      | None => None
      end
  end.

(** The states a simulation can be in: the program start, and whatever a call
    of either entry point leaves behind. *)
Inductive reachable : state -> Prop :=
| reachable_start : reachable initial_state
| reachable_call f s d s' :
    reachable s -> dpi_flicker_noise_batch f s = Some (d, s') -> reachable s'
| reachable_wrapper_call f s d s' :
    reachable s -> dpi_flicker_noise f s = Some (d, s') -> reachable s'.

(** The [k]-th 8-byte group of a file. *)
Definition chunk (file : list byte) (k : nat) : double :=
  firstn sizeof_double (skipn (k * sizeof_double) file).

(** The number of samples [fread] reports for a file. *)
Definition loaded_count (file : list byte) : nat :=
  Nat.min (length file) (sizeof_double * Z.to_nat MAX_SAMPLES) / sizeof_double.

(** The sample returned by call number [k] (from 0) when the file system
    holds [f] throughout. *)
Definition sample (f : resource) (k : nat) : option double :=
  match run (repeat f (S k)) initial_state with
  | Some (ds, _) => nth_error ds k
  | None => None
  end.

(** *** Vocabulary of the statements about the batch generator *)

Local Open Scope Z_scope.

(** [buf[i]] as the group of 8 bytes at offset [8 i]. *)
Definition slot (buf : list byte) (i : Z) : double :=
  firstn sizeof_double (skipn (Z.to_nat i * sizeof_double) buf).

(** [s] with its cursor moved to [i]. *)
Definition set_index (s : state) (i : Z) : state :=
  {| preloaded_noise := preloaded_noise s;
     current_index := i;
     initialized := initialized s;
     num_samples_loaded := num_samples_loaded s;
     call_count := call_count s;
     stderr := stderr s |}.

(** The cursor the wrap check leaves. *)
Definition wrapped (s : state) : Z :=
  if current_index s >=? num_samples_loaded s then 0 else current_index s.

(** [sizeof(preloaded_noise)] *)
Definition BUFFER_BYTES : nat := (Z.to_nat MAX_SAMPLES * sizeof_double)%nat.

(** The well-formedness every reachable state has. *)
Definition inv (s : state) : Prop :=
  length (preloaded_noise s) = BUFFER_BYTES /\
  0 <= num_samples_loaded s <= MAX_SAMPLES /\
  0 <= current_index s <= MAX_SAMPLES /\
  (initialized s = false -> s = initial_state).

(** The slot read by the [j]-th of a row of calls that starts with the
    cursor wrapped to [w], when [n] samples are loaded. *)
Definition cursor (n w : Z) (j : nat) : Z :=
  if n =? 0 then 0 else (w + Z.of_nat j) mod n.

(** The first [sizeof_double] bytes of a short file followed by zeros. *)
Definition padded (file : list byte) : double :=
  firstn sizeof_double (file ++ repeat x00 sizeof_double).

(** The [fprintf] call that reports the failure to open the file. *)
Definition is_cannot_open (c : fprintf_call) : bool :=
  String.eqb (format c) "ERROR: Cannot open %s\n".

(** *** Further vocabulary: the wrapper and the load report *)

(** A sequence of calls of the wrapper [dpi_flicker_noise], one per element
    of [env]. *)
Fixpoint run_wrapper (env : list resource) (s : state)
  : option (list double * state) :=
  match env with
  | [] => Some ([], s)
  | f :: env' =>
      match dpi_flicker_noise f s with
      | Some (d, s1) =>
          match run_wrapper env' s1 with
          | Some (ds, s2) => Some (d :: ds, s2)
          | None => None
          end
      | None => None
      end
  end.

(** Two states that play the same samples: they differ at most in the call
    count of the wrapper and in what was printed. *)
Definition same_playback (s t : state) : Prop :=
  preloaded_noise s = preloaded_noise t /\
  current_index s = current_index t /\
  initialized s = initialized t /\
  num_samples_loaded s = num_samples_loaded t.

(** The largest [int]: the wrapper's [call_count++] is defined for that many
    calls. *)
Definition INT_MAX : Z := 2147483647.

(** The line the wrapper prints for call number [k] that read slot [idx]
    and returned [d]. *)
Definition call_line (k idx : Z) (d : double) : fprintf_call :=
  Fprintf "[DPI-C CALL %3d] index=%d, value=%.6f\n"
    [AInt k; AInt idx; ADouble d].

End Batch.

(** ** Voss-McCartney streaming: [dpi_flicker_noise.c]

    A [double] is a primitive binary64 float: every operation of the source
    is one operation here, rounded once to nearest, ties to even. *)

Module Streaming.

#[local] Set Warnings "-inexact-float".

(** [#define N_SOURCES 10], [TARGET_RMS 0.25], [SEED 42], [RAW_RMS 1.757].
    The two real constants are the binary64 values the compiler reads them
    as. *)
Definition N_SOURCES : nat := 10.
Definition TARGET_RMS : float := 0.25%float.
Definition SEED : Z := 42.
Definition RAW_RMS : float := 1.757%float.

(** [unsigned long] arithmetic (LP64): results wrap modulo 2^64. *)
Definition ULONG_BITS : Z := 64.
Definition ulong (z : Z) : Z := (z mod 2 ^ ULONG_BITS)%Z.

(** [(double)n] for an [int] [n >= 0]. *)
Definition to_double (n : Z) : float := PrimFloat.of_uint63 (Uint63.of_Z n).

(** [noise_sources[i] = v] *)
Fixpoint store (l : list float) (i : nat) (v : float) : list float :=
  match l, i with
  | [], _ => []
  | _ :: t, O => v :: t
  | h :: t, S i' => h :: store t i' v
  end.

(** The generator of the C library: [srand] selects a sequence, each [rand]
    returns its next element.  Nothing else in the process calls either. *)
Record rng_state : Type := Rng { rng_seed : Z; rng_calls : nat }.

Record state : Type := State {
  noise_sources : list float;
  sample_counter : Z;
  initialized : bool;
  rng : rng_state
}.

(** C zero-initialises statics; a program that has not called [srand] draws
    the sequence of [srand(1)]. *)
Definition initial_state : state :=
  {| noise_sources := repeat 0%float N_SOURCES;
     sample_counter := 0;
     initialized := false;
     rng := Rng 1 0 |}.

Section Libc.

(** The C library's part: [RAND_MAX], and the value the [k]-th call of
    [rand()] after [srand(seed)] returns, an [int] in [0, RAND_MAX]. *)
Variable RAND_MAX : Z.
Variable rand_stream : Z -> nat -> Z.

Definition srand (seed : Z) : rng_state := Rng seed 0.

Definition rand (g : rng_state) : Z * rng_state :=
  (rand_stream (rng_seed g) (rng_calls g), Rng (rng_seed g) (S (rng_calls g))).

(** [2.0 * ((double)r / RAND_MAX) - 1.0] for the value [r] of [rand()]. *)
Definition uniform (r : Z) : float :=
  (2 * (to_double r / to_double RAND_MAX) - 1)%float.

(** [for (int i = 0; i < N_SOURCES; i++) noise_sources[i] = 2.0 * ... - 1.0;]
    with [fuel] iterations left. *)
Fixpoint init_loop (fuel i : nat) (srcs : list float) (g : rng_state)
  : list float * rng_state :=
  match fuel with
  | O => (srcs, g)
  | S fuel' =>
      let '(r, g') := rand g in
      init_loop fuel' (S i) (store srcs i (uniform r)) g'
  end.

(** [static void init_flicker_noise()] *)
Definition init_flicker_noise (s : state) : state :=
  let '(srcs, g) := init_loop N_SOURCES 0 (noise_sources s) (srand SEED) in
  {| noise_sources := srcs;
     sample_counter := 0;
     initialized := true;
     rng := g |}.

(** [(sample_counter & ((1UL << i) - 1)) == 0] *)
Definition due (counter : Z) (i : nat) : bool :=
  (Z.land counter (ulong (ulong (Z.shiftl 1 (Z.of_nat i)) - 1)) =? 0)%Z.

(** The update loop of lines 105-114, with [fuel] iterations left. *)
Fixpoint update_loop (fuel i : nat) (counter : Z) (srcs : list float)
  (g : rng_state) : list float * rng_state :=
  match fuel with
  | O => (srcs, g)
  | S fuel' =>
      if due counter i
      then let '(r, g') := rand g in
           update_loop fuel' (S i) counter (store srcs i (uniform r)) g'
      else update_loop fuel' (S i) counter srcs g
  end.

(** [double sum = 0.0; for (...) sum += noise_sources[i];] *)
Definition sum_sources (srcs : list float) : float :=
  fold_left PrimFloat.add (firstn N_SOURCES srcs) 0%float.

(** [if (!initialized) { init_flicker_noise(); }] *)
Definition ensure_initialized (s : state) : state :=
  if negb (initialized s) then init_flicker_noise s else s.

(** [double dpi_flicker_noise(void)] *)
Definition dpi_flicker_noise (s : state) : float * state :=
  let s0 := ensure_initialized s in
  let '(srcs, g) :=
    update_loop N_SOURCES 0 (sample_counter s0) (noise_sources s0) (rng s0) in
  let sum := sum_sources srcs in
  (PrimFloat.mul sum (PrimFloat.div TARGET_RMS RAW_RMS),
   {| noise_sources := srcs;
      sample_counter := ulong (sample_counter s0 + 1);
      initialized := initialized s0;
      rng := g |}).

(** [n] calls in a row; the samples come back in call order. *)
Fixpoint run (n : nat) (s : state) : list float * state :=
  match n with
  | O => ([], s)
  | S n' =>
      let '(x, s1) := dpi_flicker_noise s in
      let '(xs, s2) := run n' s1 in
      (x :: xs, s2)
  end.

(** The state after [n] calls from the program start. *)
Definition after (n : nat) : state := snd (run n initial_state).

(** The sample returned by call number [n] (from 0). *)
Definition sample (n : nat) : float := fst (dpi_flicker_noise (after n)).

(** The value [rand()] call number [k] from now draws for a source. *)
Definition draw (g : rng_state) (k : nat) : float :=
  uniform (rand_stream (rng_seed g) (rng_calls g + k)).

End Libc.

(** A concrete C library for running the model: the sample implementation of
    [rand] in the C standard (7.22.2.2), with [RAND_MAX] 32767. *)
Definition example_RAND_MAX : Z := 32767.

Definition example_next (next : Z) : Z :=
  ulong (next * 1103515245 + 12345).

Definition example_rand_stream (seed : Z) (k : nat) : Z :=
  ((Nat.iter (S k) example_next (ulong seed) / 65536) mod 32768)%Z.

(** *** Vocabulary of the statements about the streaming generator *)

(** The number of sources among [i, i + n) that are due at [counter]: the
    number of [rand()] calls the update loop makes for them. *)
Definition due_count (counter : Z) (i n : nat) : nat :=
  length (filter (due counter) (seq i n)).

(** What every state of a simulation satisfies. *)
Definition wf (s : state) : Prop :=
  length (noise_sources s) = N_SOURCES /\
  (0 <= sample_counter s < 2 ^ 64)%Z /\
  (initialized s = true ->
   rng_seed (rng s) = SEED /\ (N_SOURCES <= rng_calls (rng s))%nat).

(** The same C library, except that the ten draws the loader makes are
    all 0. *)
Definition example_rand_stream' (seed : Z) (k : nat) : Z :=
  if (k <? N_SOURCES)%nat then 0 else example_rand_stream seed k.

(** *** Further vocabulary: the schedule by call number *)

(** The number of call numbers below [n] that are multiples of [2^i]: how
    often the update loop has drawn source [i] in [n] calls. *)
Definition refreshes (n : Z) (i : nat) : Z :=
  ((n + 2 ^ Z.of_nat i - 1) / 2 ^ Z.of_nat i)%Z.

(** The number of [rand()] calls since [srand(SEED)] when the update loop of
    call number [n] starts. *)
Definition used (RAND_MAX : Z) (rand_stream : Z -> nat -> Z) (n : nat) : nat :=
  rng_calls (rng (ensure_initialized RAND_MAX rand_stream
                    (after RAND_MAX rand_stream n))).

(** The number of [rand()] calls since [srand(SEED)] when the loader and the
    update loops of [n] calls have run. *)
Definition draws_before (n : Z) : nat :=
  (N_SOURCES
   + Z.to_nat (fold_right Z.add 0%Z (map (refreshes n) (seq 0 N_SOURCES))))%nat.

End Streaming.

(** ** The simulation driver: [tb/tb_wrapper.cpp] *)

Module Testbench.

(** [const vluint64_t max_sim_time = 100000;] *)
Definition max_sim_time : Z := 100000.

Section Verilated.

(** Verilator's part: [model] is everything [tb->eval()] can touch (the
    testbench module and the context that holds the finish flag),
    [gotFinish] reads [Verilated::gotFinish()], [final] is [tb->final()];
    [VM_TRACE] is the compile-time switch of the waveform dump. *)
Variable model : Type.
Variable eval : model -> model.
Variable gotFinish : model -> bool.
Variable final : model -> model.
Variable VM_TRACE : bool.

(** The locals of [main]: the model, [sim_time], and the times handed to
    [tfp->dump] so far. *)
Record sim : Type := Sim { tb : model; sim_time : Z; dumped : list Z }.

(** [while (!Verilated::gotFinish() && sim_time < max_sim_time)
      { tb->eval(); if (tfp) tfp->dump(sim_time); sim_time++; }]
    with [fuel] iterations left. *)
Fixpoint loop (fuel : nat) (s : sim) : sim :=
  match fuel with
  | O => s
  | S fuel' =>
      if negb (gotFinish (tb s)) && (sim_time s <? max_sim_time)%Z
      then loop fuel'
             {| tb := eval (tb s);
                sim_time := (sim_time s + 1)%Z;
                dumped := if VM_TRACE then dumped s ++ [sim_time s]
                          else dumped s |}
      else s
  end.

(** [int main(int argc, char** argv)], from the freshly built model [m0] to
    the locals after [tb->final()]. *)
Definition main (m0 : model) : sim :=
  let s := loop (Z.to_nat max_sim_time)
             {| tb := m0; sim_time := 0; dumped := [] |} in
  {| tb := final (tb s); sim_time := sim_time s; dumped := dumped s |}.

End Verilated.

Arguments Sim {model}.
Arguments tb {model}.
Arguments sim_time {model}.
Arguments dumped {model}.

End Testbench.

(** ** Binary64 numbers as integers

    Vocabulary for bounds on [double] values, over the specification of
    binary64 ([SpecFloat]) that the primitive floats satisfy. *)

Module Binary64.
Local Open Scope Z_scope.

(** The value of a finite binary64 number in units of 2^-1074, the smallest
    positive one: an integer. *)
Definition mag (m : positive) (e : Z) : Z := Zpos m * 2 ^ (e + 1074).

(** The signed value of a number, in the same units; 0 for what is not a
    finite number. *)
Definition sval (x : spec_float) : Z :=
  match x with
  | S754_finite s m e => cond_Zopp s (mag m e)
  | _ => 0
  end.

(** Zero or a finite number (with an exponent binary64 has). *)
Definition fin (x : spec_float) : Prop :=
  match x with
  | S754_zero _ => True
  | S754_finite _ _ e => -1074 <= e
  | _ => False
  end.

(** A finite number of magnitude at most [b] units. *)
Definition within (b : Z) (x : spec_float) : Prop :=
  fin x /\ Z.abs (sval x) <= b.

(** Not negative: +0, -0 or a positive number. *)
Definition nonneg (x : spec_float) : Prop :=
  match x with
  | S754_zero _ => True
  | S754_finite s _ _ => s = false
  | _ => False
  end.

(** A shift record that has lost a bit that was set. *)
Definition inexact (r : shr_record) : bool := shr_r r || shr_s r.

(** [under r t]: the number a shift record stands for is at most [t]. *)
Definition under (r : shr_record) (t : Z) : Prop :=
  shr_m r <= t /\ (inexact r = true -> shr_m r < t).

(** The mantissa of 1.0 and 2.0 ([2^52]), of [TARGET_RMS / RAW_RMS] and of
    [10 * TARGET_RMS / RAW_RMS]. *)
Definition one_m : positive := 4503599627370496.
Definition scale_m : positive := 5126465142140576.
Definition peak_m : positive := 6408081427675720.

(** A [double] in [-1, 1]. *)
Definition unit_range (x : float) : Prop := within (2 ^ 1074) (Prim2SF x).

End Binary64.


(** * Batch playback: proofs *)

Module BatchFacts.
Import Batch.
Local Open Scope Z_scope.

Lemma ensure_initialized_done f s :
  initialized s = true -> ensure_initialized f s = s.
Proof. unfold ensure_initialized; intros ->; reflexivity. Qed.

Lemma wrap_index_spec s : wrap_index s = set_index s (wrapped s).
Proof.
  unfold wrap_index, wrapped, set_index.
  destruct (current_index s >=? num_samples_loaded s) eqn:E; [reflexivity|].
  destruct s; reflexivity.
Qed.

Lemma wrapped_range s :
  0 <= current_index s -> 0 <= num_samples_loaded s <= MAX_SAMPLES ->
  0 <= wrapped s < MAX_SAMPLES /\
  (0 < num_samples_loaded s -> wrapped s < num_samples_loaded s) /\
  (num_samples_loaded s = 0 -> wrapped s = 0).
Proof.
  unfold wrapped, MAX_SAMPLES; intros Hc Hn.
  destruct (Z.geb_spec (current_index s) (num_samples_loaded s)); lia.
Qed.

Lemma read_double_slot buf i :
  0 <= i < MAX_SAMPLES -> read_double buf i = Some (slot buf i).
Proof.
  intros [H0 H1]; unfold read_double.
  apply Z.leb_le in H0; apply Z.ltb_lt in H1; rewrite H0, H1; reflexivity.
Qed.

(** One call on a loaded generator. *)
Lemma call_initialized f s :
  initialized s = true ->
  0 <= current_index s -> 0 <= num_samples_loaded s <= MAX_SAMPLES ->
  dpi_flicker_noise_batch f s =
  Some (slot (preloaded_noise s) (wrapped s), set_index s (wrapped s + 1)).
Proof.
  intros Hi Hc Hn.
  unfold dpi_flicker_noise_batch, at_read.
  rewrite (ensure_initialized_done f s Hi), wrap_index_spec.
  unfold read_and_advance; cbn [set_index preloaded_noise current_index].
  rewrite read_double_slot by (apply wrapped_range; assumption).
  reflexivity.
Qed.

(** The first call loads, and then behaves as a call on the loaded state. *)
Lemma call_uninitialized f f' s :
  initialized s = false ->
  dpi_flicker_noise_batch f s =
  dpi_flicker_noise_batch f' (init_flicker_noise_batch f s).
Proof.
  intros Hi. unfold dpi_flicker_noise_batch, at_read, ensure_initialized.
  rewrite Hi; cbn [negb].
  destruct f; cbn; try destruct (fread _ _ _ _); reflexivity.
Qed.

Lemma fread_count buf file :
  snd (fread buf sizeof_double (Z.to_nat MAX_SAMPLES) file)
  = Z.of_nat (loaded_count file).
Proof. unfold fread, loaded_count; cbn [snd]. reflexivity. Qed.

Lemma loaded_count_le file : (loaded_count file <= 4096)%nat.
Proof.
  unfold loaded_count, sizeof_double, MAX_SAMPLES.
  change (Z.to_nat 4096) with 4096%nat.
  apply Nat.Div0.div_le_upper_bound. lia.
Qed.

Lemma loaded_count_bytes file :
  (sizeof_double * loaded_count file <= length file)%nat.
Proof.
  unfold loaded_count, sizeof_double, MAX_SAMPLES.
  change (Z.to_nat 4096) with 4096%nat.
  pose proof (Nat.Div0.mul_div_le (Nat.min (length file) (8 * 4096)) 8). lia.
Qed.

Lemma initial_buffer_length :
  length (preloaded_noise initial_state) = BUFFER_BYTES.
Proof. apply repeat_length. Qed.

Lemma inv_initial : inv initial_state.
Proof.
  split; [exact initial_buffer_length|].
  repeat split; cbn [initial_state num_samples_loaded current_index];
    unfold MAX_SAMPLES; lia.
Qed.

Lemma fread_length buf file :
  length buf = BUFFER_BYTES ->
  length (fst (fread buf sizeof_double (Z.to_nat MAX_SAMPLES) file)) = BUFFER_BYTES.
Proof.
  intros Hb. unfold fread; cbn [fst].
  rewrite length_app, length_firstn, length_skipn, Hb.
  unfold BUFFER_BYTES, sizeof_double, MAX_SAMPLES.
  change (Z.to_nat 4096) with 4096%nat. lia.
Qed.

(** What the loader leaves behind, whatever the file system holds. *)
Lemma init_inv f s :
  length (preloaded_noise s) = BUFFER_BYTES -> current_index s = 0 ->
  let s' := init_flicker_noise_batch f s in
  inv s' /\ initialized s' = true /\ current_index s' = 0.
Proof.
  intros Hb Hc. destruct f as [file|]; unfold init_flicker_noise_batch.
  - pose proof (fread_length _ file Hb) as Hl.
    pose proof (fread_count (preloaded_noise s) file) as Hn.
    destruct (fread _ _ _ file) as [buf n]. cbn [fst snd] in Hl, Hn.
    cbn [preloaded_noise num_samples_loaded current_index initialized].
    pose proof (loaded_count_le file).
    unfold inv; cbn [preloaded_noise num_samples_loaded current_index initialized].
    unfold MAX_SAMPLES in *. repeat split; try lia; try discriminate.
  - unfold inv; cbn [preloaded_noise num_samples_loaded current_index initialized].
    unfold memset_zero. rewrite repeat_length.
    unfold MAX_SAMPLES in *. repeat split; try lia; try discriminate.
Qed.

Lemma inv_call f s d s' :
  inv s -> dpi_flicker_noise_batch f s = Some (d, s') ->
  inv s' /\ initialized s' = true.
Proof.
  intros Hs Hcall.
  assert (Hgen : forall t, inv t -> initialized t = true ->
            dpi_flicker_noise_batch f t = Some (d, s') ->
            inv s' /\ initialized s' = true).
  { intros t (Hb & Hn & Hc & _) Hi Ht.
    rewrite call_initialized in Ht by (assumption || lia).
    injection Ht as _ <-.
    pose proof (wrapped_range t (proj1 Hc) Hn) as (Hw & _).
    unfold inv; cbn [set_index preloaded_noise num_samples_loaded
                     current_index initialized].
    repeat split; try assumption; try lia. congruence. }
  destruct (initialized s) eqn:Hi.
  - exact (Hgen s Hs Hi Hcall).
  - rewrite (call_uninitialized f f s Hi) in Hcall.
    destruct Hs as (Hb & _ & Hc & Hstart). rewrite (Hstart Hi) in Hcall.
    destruct (init_inv f initial_state initial_buffer_length eq_refl)
      as (Hinv & Hini & _).
    exact (Hgen _ Hinv Hini Hcall).
Qed.

(** The wrapper returns what [dpi_flicker_noise_batch] returns and touches
    only its call count and [stderr]. *)
Lemma wrapper_call f s d s' :
  dpi_flicker_noise f s = Some (d, s') ->
  exists s1,
    dpi_flicker_noise_batch f s = Some (d, s1) /\
    preloaded_noise s' = preloaded_noise s1 /\
    current_index s' = current_index s1 /\
    initialized s' = initialized s1 /\
    num_samples_loaded s' = num_samples_loaded s1.
Proof.
  unfold dpi_flicker_noise.
  destruct (dpi_flicker_noise_batch f s) as [[d1 s1]|]; [|discriminate].
  intros H. injection H as <- <-. exists s1. split; [reflexivity|].
  destruct (call_count s1 <? 30); cbn; auto.
Qed.

Lemma reachable_inv s : reachable s -> inv s.
Proof.
  induction 1 as [|f s d s' _ IH Hcall|f s d s' _ IH Hcall];
    [exact inv_initial| |].
  - exact (proj1 (inv_call f s d s' IH Hcall)).
  - destruct (wrapper_call f s d s' Hcall) as (s1 & Hb & E1 & E2 & E3 & E4).
    destruct (inv_call f s d s1 IH Hb) as ((H1 & H2 & H3 & _) & Hi).
    unfold inv. rewrite E1, E2, E3, E4, Hi.
    split; [exact H1|]. split; [exact H2|]. split; [exact H3|]. discriminate.
Qed.

Lemma cursor_next s j :
  0 <= current_index s -> 0 <= num_samples_loaded s ->
  cursor (num_samples_loaded s) (wrapped (set_index s (wrapped s + 1))) j
  = cursor (num_samples_loaded s) (wrapped s) (S j).
Proof.
  intros Hc Hn. unfold cursor.
  destruct (Z.eqb_spec (num_samples_loaded s) 0) as [|Hn0]; [reflexivity|].
  unfold wrapped at 1; cbn [set_index current_index num_samples_loaded].
  assert (Hw : 0 <= wrapped s < num_samples_loaded s).
  { unfold wrapped.
    destruct (Z.geb_spec (current_index s) (num_samples_loaded s)); lia. }
  rewrite Nat2Z.inj_succ.
  destruct (Z.geb_spec (wrapped s + 1) (num_samples_loaded s)).
  - replace (wrapped s + Z.succ (Z.of_nat j))
      with (0 + Z.of_nat j + 1 * num_samples_loaded s) by lia.
    now rewrite Z_mod_plus_full.
  - f_equal; lia.
Qed.

Lemma cursor_0 n w :
  0 <= n -> 0 <= w -> (0 < n -> w < n) -> (n = 0 -> w = 0) ->
  cursor n w 0 = w.
Proof.
  intros Hn H0 H1 H2. unfold cursor.
  destruct (Z.eqb_spec n 0); [symmetry; auto|].
  rewrite Z.add_0_r. apply Z.mod_small. lia.
Qed.

(** A row of calls on a loaded generator: the samples are the slots the
    cursor walks through, and nothing but the cursor changes. *)
Lemma run_initialized env : forall s,
  initialized s = true ->
  0 <= current_index s -> 0 <= num_samples_loaded s <= MAX_SAMPLES ->
  exists i,
    run env s =
    Some (map (fun j => slot (preloaded_noise s)
                          (cursor (num_samples_loaded s) (wrapped s) j))
              (seq 0 (length env)),
          set_index s i)
    /\ 0 <= i.
Proof.
  induction env as [|f env IH]; intros s Hi Hc Hn.
  - exists (current_index s). split; [|exact Hc].
    cbn. destruct s; reflexivity.
  - pose proof (wrapped_range s Hc Hn) as (Hw & Hw1 & Hw2).
    cbn [run]. rewrite call_initialized by assumption.
    destruct (IH (set_index s (wrapped s + 1))) as (i & Hrun & Hir);
      cbn [set_index initialized current_index num_samples_loaded]; try lia;
      try assumption.
    rewrite Hrun. exists i. split; [|exact Hir].
    cbn [set_index preloaded_noise num_samples_loaded length seq map].
    rewrite cursor_0 by lia.
    rewrite <- seq_shift, map_map.
    do 3 f_equal.
    apply map_ext; intros j.
    f_equal. apply cursor_next; lia.
Qed.

Lemma run_first f f' env s :
  initialized s = false ->
  run (f :: env) s = run (f' :: env) (init_flicker_noise_batch f s).
Proof.
  intros Hi. cbn [run]. now rewrite (call_uninitialized f f' s Hi).
Qed.

(** Once loaded, a row of calls no longer looks at the file system. *)
Lemma run_env_irrelevant env : forall env' s,
  initialized s = true ->
  0 <= current_index s -> 0 <= num_samples_loaded s <= MAX_SAMPLES ->
  length env = length env' -> run env s = run env' s.
Proof.
  induction env as [|f env IH]; intros [|f' env'] s Hi Hc Hn Hlen;
    try discriminate; [reflexivity|].
  cbn [run]. rewrite !call_initialized by assumption.
  pose proof (wrapped_range s Hc Hn) as (Hw & _).
  rewrite (IH env' (set_index s (wrapped s + 1))); cbn; auto; lia.
Qed.

Lemma skipn_repeat (x : byte) k n : skipn k (repeat x n) = repeat x (n - k).
Proof.
  revert n; induction k as [|k IH]; intros [|n]; cbn; auto.
Qed.

Lemma firstn_repeat (x : byte) k n :
  firstn k (repeat x n) = repeat x (Nat.min k n).
Proof.
  revert n; induction k as [|k IH]; intros [|n]; cbn; auto. now rewrite IH.
Qed.

Lemma slot_zeros n i :
  (Z.to_nat i * sizeof_double + sizeof_double <= n)%nat ->
  slot (repeat x00 n) i = zero_double.
Proof.
  intros H. unfold slot, zero_double.
  rewrite skipn_repeat, firstn_repeat. f_equal. lia.
Qed.

(** The slots below the count [fread] reports hold the file's groups. *)
Lemma slot_fread buf file (j : nat) :
  (j < loaded_count file)%nat ->
  slot (fst (fread buf sizeof_double (Z.to_nat MAX_SAMPLES) file)) (Z.of_nat j)
  = chunk file j.
Proof.
  intros Hj. pose proof (loaded_count_bytes file) as Hb.
  pose proof (loaded_count_le file) as Hl.
  unfold slot, chunk, fread; cbn [fst]. rewrite Nat2Z.id.
  set (k := Nat.min (length file) (sizeof_double * Z.to_nat MAX_SAMPLES)).
  assert (Hk : (j * sizeof_double + sizeof_double <= k)%nat).
  { unfold k, sizeof_double, MAX_SAMPLES in *.
    change (Z.to_nat 4096) with 4096%nat. lia. }
  assert (Hkl : length (firstn k file) = k).
  { rewrite length_firstn. unfold k. lia. }
  rewrite skipn_app, Hkl.
  replace (j * sizeof_double - k)%nat with 0%nat by lia. cbn [skipn].
  rewrite firstn_app, length_skipn, Hkl.
  replace (sizeof_double - (k - j * sizeof_double))%nat with 0%nat by lia.
  cbn [firstn]. rewrite app_nil_r, skipn_firstn_comm, firstn_firstn.
  f_equal. lia.
Qed.

(** The groups of a file, one after the other, are the file. *)
Lemma concat_chunks file : forall n,
  (n * sizeof_double <= length file)%nat ->
  concat (map (chunk file) (seq 0 n)) = firstn (n * sizeof_double) file.
Proof.
  unfold sizeof_double.
  induction n as [|n IH]; intros Hn; [reflexivity|].
  rewrite seq_S, map_app, concat_app, IH by lia.
  cbn [map concat Nat.add]. rewrite app_nil_r. unfold chunk, sizeof_double.
  replace (S n * 8)%nat with (n * 8 + 8)%nat by lia.
  rewrite <- (firstn_skipn (n * 8) (firstn (n * 8 + 8) file)).
  rewrite firstn_firstn, Nat.min_l by lia. f_equal.
  rewrite skipn_firstn_comm. f_equal. lia.
Qed.

(** The state the loader leaves from the program start, field by field. *)
Lemma init_file file :
  let s := init_flicker_noise_batch (Some file) initial_state in
  preloaded_noise s
  = fst (fread (preloaded_noise initial_state) sizeof_double
           (Z.to_nat MAX_SAMPLES) file)
  /\ num_samples_loaded s = Z.of_nat (loaded_count file)
  /\ current_index s = 0 /\ initialized s = true.
Proof.
  unfold init_flicker_noise_batch.
  pose proof (fread_count (preloaded_noise initial_state) file) as Hn.
  destruct (fread _ _ _ file) as [buf n]; cbn [fst snd] in *.
  cbn [preloaded_noise num_samples_loaded current_index initialized].
  auto.
Qed.

(** The samples of a row of calls that starts the program, for a resource
    that is there. *)
Lemma run_file file env :
  exists s,
    run (Some file :: env) initial_state
    = Some (map (fun j =>
                   slot (fst (fread (preloaded_noise initial_state)
                                sizeof_double (Z.to_nat MAX_SAMPLES) file))
                     (cursor (Z.of_nat (loaded_count file)) 0 j))
              (seq 0 (S (length env))), s).
Proof.
  rewrite (run_first _ (Some file)) by reflexivity.
  destruct (init_file file) as (Hb & Hn & Hc & Hi).
  pose proof (loaded_count_le file) as Hle.
  destruct (run_initialized (Some file :: env)
              (init_flicker_noise_batch (Some file) initial_state))
    as (i & Hrun & _); try assumption; try (rewrite ?Hc, ?Hn; unfold MAX_SAMPLES; lia).
  assert (Hw : wrapped (init_flicker_noise_batch (Some file) initial_state) = 0).
  { unfold wrapped. rewrite Hc. now destruct (_ >=? _). }
  rewrite Hb, Hn, Hw in Hrun. eexists. exact Hrun.
Qed.

Lemma sample_file file k :
  (0 < loaded_count file)%nat ->
  sample (Some file) k = Some (chunk file (k mod loaded_count file)).
Proof.
  intros Hpos. unfold sample.
  change (repeat (Some file) (S k)) with (Some file :: repeat (Some file) k).
  destruct (run_file file (repeat (Some file) k)) as (s & ->).
  rewrite repeat_length, nth_error_map, nth_error_seq.
  destruct (Nat.ltb_spec k (S k)) as [_|]; [|lia].
  cbn [option_map Nat.add]. f_equal.
  unfold cursor. destruct (Z.eqb_spec (Z.of_nat (loaded_count file)) 0); [lia|].
  rewrite Z.add_0_l, <- Nat2Z.inj_mod.
  apply slot_fread. apply Nat.mod_upper_bound. lia.
Qed.

Lemma ensure_initialized_inv f s :
  inv s ->
  inv (ensure_initialized f s) /\ initialized (ensure_initialized f s) = true.
Proof.
  intros Hs. unfold ensure_initialized.
  destruct (initialized s) eqn:Hi; cbn [negb]; [now split|].
  destruct Hs as (_ & _ & _ & Hstart). rewrite (Hstart Hi).
  destruct (init_inv f initial_state initial_buffer_length eq_refl)
    as (Hinv & Hini & _).
  now split.
Qed.

Lemma run_prefix_file file n :
  (n <= loaded_count file)%nat ->
  exists s,
    run (repeat (Some file) n) initial_state
    = Some (map (chunk file) (seq 0 n), s).
Proof.
  destruct n as [|n]; intros Hn; [eexists; reflexivity|].
  change (repeat (Some file) (S n)) with (Some file :: repeat (Some file) n).
  destruct (run_file file (repeat (Some file) n)) as (s & Hrun).
  exists s. rewrite Hrun, repeat_length. do 2 f_equal.
  apply map_ext_in. intros j Hj. apply in_seq in Hj.
  unfold cursor. destruct (Z.eqb_spec (Z.of_nat (loaded_count file)) 0); [lia|].
  rewrite Z.add_0_l, Z.mod_small by lia.
  apply slot_fread. lia.
Qed.

Lemma map_seq_const {A} (f : nat -> A) (z : A) n :
  (forall j, f j = z) -> map f (seq 0 n) = repeat z n.
Proof.
  intros Hf. rewrite (map_ext f (fun _ => z) Hf), map_const.
  now rewrite length_seq.
Qed.

Lemma buffer_bytes : BUFFER_BYTES = (4096 * 8)%nat.
Proof. reflexivity. Qed.

Lemma slot_0_short_file file :
  (length file < sizeof_double)%nat ->
  slot (fst (fread (preloaded_noise initial_state) sizeof_double
               (Z.to_nat MAX_SAMPLES) file)) 0
  = padded file.
Proof.
  intros Hlen. unfold slot, padded, fread; cbn [fst].
  change (Z.to_nat 0 * sizeof_double)%nat with 0%nat. cbn [skipn].
  change (Z.to_nat MAX_SAMPLES) with 4096%nat.
  change (preloaded_noise initial_state) with (repeat x00 BUFFER_BYTES).
  rewrite buffer_bytes. unfold sizeof_double in *.
  rewrite Nat.min_l, firstn_all by lia.
  rewrite !firstn_app, skipn_repeat, !firstn_repeat.
  do 2 f_equal. lia.
Qed.

(** C1, as stated, fails: an existing but empty resource loads zero samples,
    and the first call reads at cursor 0, which is not below
    [num_samples_loaded = 0]. *)
Lemma empty_resource_read_not_below_count :
  reachable initial_state /\
  num_samples_loaded (at_read (Some []) initial_state) = 0 /\
  current_index (at_read (Some []) initial_state) = 0 /\
  ~ (0 <= current_index (at_read (Some []) initial_state)
       < num_samples_loaded (at_read (Some []) initial_state)).
Proof.
  split; [exact reachable_start|].
  assert (Hn : num_samples_loaded (at_read (Some []) initial_state) = 0)
    by (vm_compute; reflexivity).
  assert (Hc : current_index (at_read (Some []) initial_state) = 0)
    by (vm_compute; reflexivity).
  rewrite Hn, Hc. repeat split; lia.
Qed.

(** C1, amended: in every reachable state and for every load outcome, the
    cursor at the moment of the read is inside the buffer,
    [0 <= current_index < MAX_SAMPLES], so the read succeeds; it is below
    [num_samples_loaded] whenever at least one sample is loaded, and it is 0
    when none is. *)
Theorem cursor_at_read_in_range f s :
  reachable s ->
  let r := at_read f s in
  0 <= current_index r < MAX_SAMPLES /\
  (0 < num_samples_loaded r ->
   0 <= current_index r < num_samples_loaded r) /\
  (num_samples_loaded r = 0 -> current_index r = 0) /\
  read_and_advance r
  = Some (slot (preloaded_noise r) (current_index r),
          set_index r (current_index r + 1)).
Proof.
  intros Hr r. subst r. unfold at_read.
  destruct (ensure_initialized_inv f s (reachable_inv s Hr))
    as ((Hb & Hn & Hc & _) & Hi).
  rewrite wrap_index_spec.
  cbn [set_index current_index num_samples_loaded preloaded_noise].
  pose proof (wrapped_range _ (proj1 Hc) Hn) as (Hw & Hw1 & Hw2).
  repeat split; try lia; auto.
  unfold read_and_advance; cbn [set_index current_index preloaded_noise].
  now rewrite read_double_slot.
Qed.

(** At the program start, with a resource of two bytes. *)
Lemma cursor_at_read_in_range_witness :
  let r := at_read (Some [x01; x02]) initial_state in
  0 <= current_index r < MAX_SAMPLES /\
  (0 < num_samples_loaded r ->
   0 <= current_index r < num_samples_loaded r) /\
  (num_samples_loaded r = 0 -> current_index r = 0) /\
  read_and_advance r
  = Some (slot (preloaded_noise r) (current_index r),
          set_index r (current_index r + 1)).
Proof.
  exact (cursor_at_read_in_range (Some [x01; x02]) initial_state reachable_start).
Defined.

(** C3: with [n > 0] samples loaded from a file, call number [k] returns the
    [k mod n]-th 8-byte group of the file.  So a file of at least 4096
    samples is replayed byte for byte by the first 4096 calls and the 4097th
    call returns what the 1st did; a file truncated to 100 samples has
    period 100, and 4096 is not a period of it in general. *)
Theorem playback_periodic :
  (forall file k, (0 < loaded_count file)%nat ->
     sample (Some file) k = Some (chunk file (k mod loaded_count file))) /\
  (forall file, (4096 * sizeof_double <= length file)%nat ->
     loaded_count file = 4096%nat /\
     sample (Some file) 4096 = sample (Some file) 0 /\
     exists ds s,
       run (repeat (Some file) 4096) initial_state = Some (ds, s) /\
       concat ds = firstn (4096 * sizeof_double) file) /\
  (forall file, (100 * sizeof_double <= length file < 101 * sizeof_double)%nat ->
     loaded_count file = 100%nat /\
     forall k, sample (Some file) (k + 100) = sample (Some file) k) /\
  (exists file,
     loaded_count file = 100%nat /\
     sample (Some file) 4096 <> sample (Some file) 0).
Proof.
  split; [exact sample_file|]. split; [|split].
  - intros file Hlen.
    assert (Hn : loaded_count file = 4096%nat).
    { unfold loaded_count, sizeof_double, MAX_SAMPLES in *.
      change (Z.to_nat 4096) with 4096%nat.
      rewrite Nat.min_r by lia. rewrite Nat.mul_comm. now apply Nat.div_mul. }
    split; [exact Hn|]. split.
    + rewrite !sample_file by lia. rewrite Hn.
      now rewrite Nat.Div0.mod_same, Nat.Div0.mod_0_l.
    + destruct (run_prefix_file file 4096) as (s & Hrun); [lia|].
      exists (map (chunk file) (seq 0 4096)), s. split; [exact Hrun|].
      apply concat_chunks. exact Hlen.
  - intros file Hlen.
    assert (Hn : loaded_count file = 100%nat).
    { unfold loaded_count, sizeof_double, MAX_SAMPLES in *.
      change (Z.to_nat 4096) with 4096%nat.
      rewrite Nat.min_l by lia.
      symmetry. apply (Nat.div_unique _ 8 100 (length file - 800)); lia. }
    split; [exact Hn|]. intros k.
    rewrite !sample_file by lia. rewrite Hn. do 2 f_equal.
    replace (k + 100)%nat with (k + 1 * 100)%nat by lia.
    apply Nat.Div0.mod_add.
  - exists (repeat x00 (96 * 8) ++ repeat x01 (4 * 8)).
    assert (Hn : loaded_count (repeat x00 (96 * 8) ++ repeat x01 (4 * 8)) = 100%nat)
      by (vm_compute; reflexivity).
    split; [exact Hn|].
    rewrite !sample_file by lia. rewrite Hn.
    vm_compute. discriminate.
Qed.

(** The fifth call on a resource of three samples. *)
Lemma playback_periodic_witness :
  sample (Some (repeat x07 (3 * sizeof_double))) 4
  = Some (chunk (repeat x07 (3 * sizeof_double))
            (4 mod loaded_count (repeat x07 (3 * sizeof_double)))).
Proof.
  apply (proj1 playback_periodic). vm_compute. lia.
Defined.

(** C4: when the file cannot be opened, the loader overwrites every byte of
    the buffer with zero, whatever the buffer held, sets
    [num_samples_loaded] to [MAX_SAMPLES], marks the generator initialized
    and prints its error block, leaving the cursor alone; every call of a
    run that starts this way returns 0.0, whatever the file system holds
    later and whatever the buffer held before, and [stderr] holds the error
    block once, however many calls were made. *)
Theorem missing_resource_plays_zeros :
  (forall s,
     let s' := init_flicker_noise_batch None s in
     preloaded_noise s' = repeat x00 (length (preloaded_noise s)) /\
     num_samples_loaded s' = MAX_SAMPLES /\
     initialized s' = true /\
     current_index s' = current_index s /\
     stderr s' = stderr s ++ cannot_open_diagnostic) /\
  (let s := init_flicker_noise_batch None initial_state in
   preloaded_noise s = repeat x00 BUFFER_BYTES /\
   num_samples_loaded s = MAX_SAMPLES /\
   initialized s = true /\
   stderr s = cannot_open_diagnostic) /\
  (forall env, exists s,
     run (None :: env) initial_state
     = Some (repeat zero_double (S (length env)), s) /\
     initialized s = true /\
     stderr s = cannot_open_diagnostic /\
     length (filter is_cannot_open (stderr s)) = 1%nat) /\
  (forall s0 env,
     initialized s0 = false ->
     length (preloaded_noise s0) = BUFFER_BYTES ->
     0 <= current_index s0 ->
     exists s,
       run (None :: env) s0 = Some (repeat zero_double (S (length env)), s) /\
       preloaded_noise s = repeat x00 BUFFER_BYTES).
Proof.
  split; [|split; [|split]].
  - intros s. cbn zeta.
    cbn [init_flicker_noise_batch preloaded_noise num_samples_loaded
         initialized current_index stderr].
    unfold memset_zero. now repeat split.
  - cbn [init_flicker_noise_batch preloaded_noise num_samples_loaded
         initialized stderr].
    unfold memset_zero. rewrite initial_buffer_length. now repeat split.
  - intros env.
    rewrite (run_first _ None) by reflexivity.
    set (s1 := init_flicker_noise_batch None initial_state).
    destruct (run_initialized (None :: env) s1) as (i & Hrun & _);
      [reflexivity | cbn; lia | cbn; unfold MAX_SAMPLES; lia |].
    exists (set_index s1 i). split; [|split; [|split]]; try reflexivity.
    etransitivity; [exact Hrun|]. do 2 f_equal.
    apply map_seq_const. intros j.
    change (preloaded_noise s1) with (memset_zero (preloaded_noise initial_state)).
    unfold memset_zero. rewrite initial_buffer_length, buffer_bytes.
    apply slot_zeros.
    change (num_samples_loaded s1) with 4096.
    change (wrapped s1) with 0. unfold cursor. cbn [Z.eqb].
    pose proof (Z.mod_pos_bound (0 + Z.of_nat j) 4096 eq_refl).
    unfold sizeof_double. lia.
  - intros s0 env Hi Hlen Hc.
    rewrite (run_first _ None) by exact Hi.
    set (s1 := init_flicker_noise_batch None s0).
    destruct (run_initialized (None :: env) s1) as (i & Hrun & _);
      [reflexivity | exact Hc | cbn; unfold MAX_SAMPLES; lia |].
    assert (Hbuf : preloaded_noise s1 = repeat x00 BUFFER_BYTES).
    { change (preloaded_noise s1) with (memset_zero (preloaded_noise s0)).
      unfold memset_zero. now rewrite Hlen. }
    exists (set_index s1 i). split; [|exact Hbuf].
    etransitivity; [exact Hrun|]. do 2 f_equal.
    apply map_seq_const. intros j.
    rewrite Hbuf, buffer_bytes. apply slot_zeros.
    change (num_samples_loaded s1) with 4096.
    unfold cursor. cbn [Z.eqb].
    pose proof (Z.mod_pos_bound (wrapped s1 + Z.of_nat j) 4096 eq_refl).
    unfold sizeof_double. lia.
Qed.

(** Two calls with the file missing, from a start whose buffer holds the
    byte FF throughout. *)
Lemma missing_resource_plays_zeros_witness :
  exists s,
    run [None; None]
      {| preloaded_noise := repeat xff BUFFER_BYTES;
         current_index := 0;
         initialized := false;
         num_samples_loaded := 0;
         call_count := 0;
         stderr := [] |}
    = Some (repeat zero_double 2, s) /\
    preloaded_noise s = repeat x00 BUFFER_BYTES.
Proof.
  apply (proj2 (proj2 (proj2 missing_resource_plays_zeros))
           {| preloaded_noise := repeat xff BUFFER_BYTES;
              current_index := 0;
              initialized := false;
              num_samples_loaded := 0;
              call_count := 0;
              stderr := [] |} [None]).
  - reflexivity.
  - apply repeat_length.
  - cbn [current_index]. lia.
Defined.

(** C5, as stated, fails: a resource that holds the single byte 01 loads
    zero samples, and the calls return the double whose first byte is 01,
    not 0.0. *)
Lemma stray_byte_is_returned :
  num_samples_loaded (init_flicker_noise_batch (Some [x01]) initial_state) = 0 /\
  sample (Some [x01]) 0 = Some [x01; x00; x00; x00; x00; x00; x00; x00] /\
  sample (Some [x01]) 0 <> Some zero_double.
Proof.
  split; [vm_compute; reflexivity|].
  assert (H : sample (Some [x01]) 0 = Some [x01; x00; x00; x00; x00; x00; x00; x00])
    by (vm_compute; reflexivity).
  split; [exact H|]. rewrite H. discriminate.
Qed.

(** C5, amended: if the resource exists but holds fewer than 8 bytes, so
    that zero samples are read, no call fails: every call reads slot 0 of
    the buffer and returns the same value, the bytes of the resource
    followed by zeros, which is 0.0 when the resource is empty or holds
    only zero bytes. *)
Theorem no_sample_loaded_plays_slot_0 file env :
  (length file < sizeof_double)%nat ->
  exists s,
    run (Some file :: env) initial_state
    = Some (repeat (padded file) (S (length env)), s) /\
    num_samples_loaded s = 0 /\
    (forall f, current_index (at_read f s) = 0) /\
    (Forall (eq x00) file -> padded file = zero_double).
Proof.
  intros Hlen.
  assert (Hn : loaded_count file = 0%nat).
  { unfold loaded_count, sizeof_double in *. apply Nat.div_small.
    apply Nat.min_lt_iff. now left. }
  rewrite (run_first _ (Some file)) by reflexivity.
  destruct (init_file file) as (Hb & Hl & Hc & Hi).
  set (s1 := init_flicker_noise_batch (Some file) initial_state) in *.
  rewrite Hn in Hl. change (Z.of_nat 0) with 0 in Hl.
  destruct (run_initialized (Some file :: env) s1) as (i & Hrun & Hi0);
    [assumption | lia | rewrite Hl; unfold MAX_SAMPLES; lia |].
  exists (set_index s1 i). split; [|split; [|split]].
  - etransitivity; [exact Hrun|]. do 2 f_equal.
    apply map_seq_const. intros j.
    rewrite Hl, Hb. unfold cursor; cbn [Z.eqb].
    now apply slot_0_short_file.
  - exact Hl.
  - intros f. unfold at_read.
    rewrite ensure_initialized_done by exact Hi.
    rewrite wrap_index_spec. cbn [set_index current_index].
    unfold wrapped; cbn [set_index current_index num_samples_loaded].
    rewrite Hl. destruct (Z.geb_spec i 0); lia.
  - intros Hz. unfold padded, zero_double.
    apply Forall_eq_repeat in Hz. rewrite Hz, <- repeat_app, firstn_repeat.
    f_equal. lia.
Qed.

(** Three calls on a resource of three zero bytes that disappears after the
    first call and comes back empty. *)
Lemma no_sample_loaded_plays_slot_0_witness :
  exists s,
    run (Some [x00; x00; x00] :: [None; Some []]) initial_state
    = Some (repeat (padded [x00; x00; x00]) 3, s) /\
    num_samples_loaded s = 0 /\
    (forall f, current_index (at_read f s) = 0) /\
    (Forall (eq x00) [x00; x00; x00] -> padded [x00; x00; x00] = zero_double).
Proof.
  apply (no_sample_loaded_plays_slot_0 [x00; x00; x00] [None; Some []]).
  unfold sizeof_double; cbn [length]; lia.
Defined.

(** C9: the guarded load is a no-op once [initialized] is set, whatever the
    file system holds by then; so a run that first loads explicitly and then
    makes its calls returns the same samples, and ends in the same state, as
    the run whose first call loads, even when the resource changes after the
    load. *)
Theorem load_idempotent :
  (forall f s, initialized s = true -> ensure_initialized f s = s) /\
  (forall f g, ensure_initialized g (ensure_initialized f initial_state)
               = ensure_initialized f initial_state) /\
  (forall f env env',
     length env' = S (length env) ->
     run (f :: env) initial_state
     = run env' (init_flicker_noise_batch f initial_state)) /\
  (forall f n,
     option_map fst (run (repeat f n) initial_state)
     = option_map fst (run (repeat f n)
                         (init_flicker_noise_batch f initial_state))).
Proof.
  assert (Hrun : forall f env env',
     length env' = S (length env) ->
     run (f :: env) initial_state
     = run env' (init_flicker_noise_batch f initial_state)).
  { intros f env env' Hlen.
    rewrite (run_first _ f) by reflexivity.
    destruct (init_inv f initial_state initial_buffer_length eq_refl)
      as ((_ & Hn & Hc & _) & Hi & _).
    apply run_env_irrelevant; auto; try lia. }
  split; [exact ensure_initialized_done|]. split; [|split].
  - intros f g. apply ensure_initialized_done.
    apply (ensure_initialized_inv f initial_state inv_initial).
  - exact Hrun.
  - intros f [|n]; [reflexivity|].
    change (repeat f (S n)) with (f :: repeat f n) at 1.
    now rewrite (Hrun f (repeat f n) (repeat f (S n))) by (cbn; now rewrite !repeat_length).
Qed.

(** A resource that is missing at the load and there afterwards. *)
Lemma load_idempotent_witness :
  run (None :: [Some []; None]) initial_state
  = run [Some [x01]; None; None] (init_flicker_noise_batch None initial_state).
Proof.
  apply (proj1 (proj2 (proj2 load_idempotent))). reflexivity.
Defined.

End BatchFacts.
(** * Binary64 rounding: bounds that survive an operation *)

Module FloatBounds.
Import Binary64.
Local Open Scope Z_scope.

(** Powers of 2 with an exponent that is not negative. *)
Ltac pow_pos := apply Z.pow_pos_nonneg; lia.
Ltac pow_nonneg := apply Z.pow_nonneg; lia.

Lemma fexp_eq e : fexp prec emax e = Z.max (e - 53) (-1074).
Proof. reflexivity. Qed.

Lemma digits2_pos_bounds p :
  2 ^ (Zpos (digits2_pos p) - 1) <= Zpos p < 2 ^ Zpos (digits2_pos p).
Proof.
  induction p as [p IH|p IH|]; cbn [digits2_pos].
  - rewrite Pos2Z.inj_succ, (Pos2Z.inj_xI p).
    replace (Z.succ (Zpos (digits2_pos p)) - 1)
      with (Z.succ (Zpos (digits2_pos p) - 1)) by lia.
    rewrite !Z.pow_succ_r by lia. lia.
  - rewrite Pos2Z.inj_succ, (Pos2Z.inj_xO p).
    replace (Z.succ (Zpos (digits2_pos p)) - 1)
      with (Z.succ (Zpos (digits2_pos p) - 1)) by lia.
    rewrite !Z.pow_succ_r by lia. lia.
  - cbn. lia.
Qed.

(** The number of binary digits is fixed by the two powers of 2 around. *)
Lemma digits2_unique p d :
  2 ^ (d - 1) <= Zpos p < 2 ^ d -> Zpos (digits2_pos p) = d.
Proof.
  intros [Hl Hu]. pose proof (digits2_pos_bounds p) as [Hl' Hu'].
  assert (0 < d).
  { destruct (Z.ltb_spec 0 d); [assumption|].
    assert (2 ^ d <= 2 ^ 0) by (destruct (Z.ltb_spec d 0);
      [rewrite Z.pow_neg_r by assumption; cbn; lia
      | apply Z.pow_le_mono_r; lia]).
    cbn in *. lia. }
  destruct (Z.lt_trichotomy (Zpos (digits2_pos p)) d) as [Hlt|[Heq|Hgt]];
    [|assumption|].
  - assert (2 ^ Zpos (digits2_pos p) <= 2 ^ (d - 1))
      by (apply Z.pow_le_mono_r; lia). lia.
  - assert (2 ^ d <= 2 ^ (Zpos (digits2_pos p) - 1))
      by (apply Z.pow_le_mono_r; lia). lia.
Qed.

(** If [p <= q * 2^k] then [p] has at most [k] digits more than [q]. *)
Lemma digits2_le_shift p q k : 0 <= k -> Zpos p <= Zpos q * 2 ^ k ->
  Zpos (digits2_pos p) <= Zpos (digits2_pos q) + k.
Proof.
  intros Hk Hpq. pose proof (digits2_pos_bounds p) as [Hl _].
  pose proof (digits2_pos_bounds q) as [_ Hu].
  destruct (Z.leb_spec (Zpos (digits2_pos p)) (Zpos (digits2_pos q) + k));
    [assumption|].
  assert (2 ^ (Zpos (digits2_pos q) + k) <= 2 ^ (Zpos (digits2_pos p) - 1))
    by (apply Z.pow_le_mono_r; lia).
  rewrite Z.pow_add_r in * by lia.
  assert (0 < 2 ^ k) by pow_pos. nia.
Qed.

(** *** Right shifts with round and sticky bits *)

Lemma shr_1_spec r :
  0 <= shr_m r ->
  shr_m (shr_1 r) = shr_m r / 2 /\
  shr_r (shr_1 r) = Z.odd (shr_m r) /\
  shr_s (shr_1 r) = inexact r.
Proof.
  destruct r as [m r s]; cbn [shr_m]. intros Hm.
  rewrite <- Z.div2_div. unfold inexact; cbn [shr_r shr_s].
  destruct m as [|[p|p|]|p]; try lia; cbn; auto.
Qed.

Lemma shr_1_under r t :
  0 <= shr_m r -> under r (2 * t) -> under (shr_1 r) t.
Proof.
  intros Hm [Hle Hlt]. destruct (shr_1_spec r Hm) as (Em & Er & Es).
  unfold under, inexact. rewrite Em, Er, Es. split.
  - Z.div_mod_to_equations. lia.
  - intros Hi. apply orb_true_iff in Hi as [Hodd|Hi].
    + pose proof (Zmod_odd (shr_m r)) as Hmod. rewrite Hodd in Hmod.
      Z.div_mod_to_equations. lia.
    + specialize (Hlt Hi). Z.div_mod_to_equations. lia.
Qed.

Lemma iter_pos_eq {A} (f : A -> A) p : forall x,
  iter_pos f p x = Pos.iter f x p.
Proof.
  induction p as [p IH|p IH|]; intros x; cbn [iter_pos Pos.iter];
    rewrite ?IH; try reflexivity.
  now rewrite !Pos.iter_swap.
Qed.

Lemma shr_iter p : forall r,
  0 <= shr_m r ->
  0 <= shr_m (Pos.iter shr_1 r p) /\
  shr_m (Pos.iter shr_1 r p) * 2 ^ Zpos p <= shr_m r /\
  (forall t, under r (t * 2 ^ Zpos p) -> under (Pos.iter shr_1 r p) t).
Proof.
  induction p as [|p IH] using Pos.peano_ind; intros r Hm.
  - cbn [Pos.iter]. destruct (shr_1_spec r Hm) as (Em & _).
    rewrite Em. change (2 ^ 1) with 2. split; [|split].
    + Z.div_mod_to_equations; lia.
    + Z.div_mod_to_equations; lia.
    + intros t Ht. apply shr_1_under; [assumption|].
      now rewrite Z.mul_comm.
  - rewrite Pos.iter_succ, Pos2Z.inj_succ, Z.pow_succ_r by lia.
    destruct (IH r Hm) as (H0 & Hfl & Hun).
    destruct (shr_1_spec _ H0) as (Em & _). rewrite Em. split; [|split].
    + Z.div_mod_to_equations; lia.
    + assert (0 < 2 ^ Zpos p) by pow_pos.
      Z.div_mod_to_equations; nia.
    + intros t Ht. apply shr_1_under; [assumption|].
      apply Hun. now replace (2 * t * 2 ^ Zpos p) with (t * (2 * 2 ^ Zpos p)) by lia.
Qed.

Lemma shr_record_of_loc_spec m l :
  shr_m (shr_record_of_loc m l) = m /\
  (inexact (shr_record_of_loc m l) = true <-> l <> loc_Exact).
Proof.
  destruct l as [|[]]; cbn; split; auto; split; congruence.
Qed.

(** What [shr_fexp] returns for [m >= 0]: the exponent moves up by [n], the
    mantissa is divided by [2^n], bounds on the grid are kept. *)
Lemma shr_fexp_spec m e l r e' :
  0 <= m -> shr_fexp prec emax m e l = (r, e') ->
  let n := Z.max 0 (fexp prec emax (Zdigits2 m + e) - e) in
  e' = e + n /\ 0 <= shr_m r /\ shr_m r * 2 ^ n <= m /\
  (forall t, m <= t * 2 ^ n -> (l <> loc_Exact -> m < t * 2 ^ n) -> under r t).
Proof.
  intros Hm. unfold shr_fexp, shr.
  destruct (shr_record_of_loc_spec m l) as (Em & Ei).
  destruct (fexp prec emax (Zdigits2 m + e) - e) as [|p|p] eqn:En;
    intros H; injection H as <- <-; cbn zeta.
  - rewrite Z.max_l by lia. rewrite Em, Z.pow_0_r.
    split; [|split; [|split]]; try lia. intros t Ht Hl. split; rewrite Em; [lia|].
    intros Hi. apply Ei in Hi. specialize (Hl Hi). lia.
  - rewrite Z.max_r by lia. rewrite iter_pos_eq.
    destruct (shr_iter p (shr_record_of_loc m l)) as (H0 & Hfl & Hun);
      [rewrite Em; exact Hm|].
    rewrite Em in Hfl. split; [|split; [|split]]; try assumption; try lia.
    intros t Ht Hl. apply Hun. split; rewrite Em; [assumption|].
    intros Hi. apply Ei in Hi. exact (Hl Hi).
  - rewrite Z.max_l by lia. rewrite Em, Z.pow_0_r.
    split; [|split; [|split]]; try lia. intros t Ht Hl. split; rewrite Em; [lia|].
    intros Hi. apply Ei in Hi. specialize (Hl Hi). lia.
Qed.

Lemma round_nearest_even_le r t :
  0 <= shr_m r -> under r t ->
  shr_m r <= round_nearest_even (shr_m r) (loc_of_shr_record r) <= t.
Proof.
  destruct r as [m [] []]; unfold under, inexact; cbn; intros Hm [Hle Hlt];
    try destruct (Z.even m); lia.
Qed.

Lemma bounded_spec m e :
  bounded prec emax m e = true ->
  Z.max (Zpos (digits2_pos m) + e - 53) (-1074) = e /\ e <= 971.
Proof.
  unfold bounded, canonical_mantissa. rewrite fexp_eq.
  intros H. apply andb_true_iff in H as [H1 H2].
  apply Z.eqb_eq in H1. apply Z.leb_le in H2.
  change (emax - prec) with 971 in H2. now split.
Qed.

(** The canonical exponent of a number that is at most [mk * 2^ek]. *)
Lemma fexp_le_bound m e mk ek :
  0 <= m -> bounded prec emax mk ek = true -> e <= ek ->
  m <= Zpos mk * 2 ^ (ek - e) ->
  fexp prec emax (Zdigits2 m + e) <= ek.
Proof.
  intros Hm Hk He Hle. destruct (bounded_spec mk ek Hk) as (Hc & _).
  rewrite fexp_eq. destruct m as [|p|p]; [cbn [Zdigits2]; lia| |lia].
  cbn [Zdigits2].
  pose proof (digits2_le_shift p mk (ek - e) ltac:(lia) Hle). lia.
Qed.

(** *** Rounding does not cross a representable bound *)

(** [binary_round_aux] applied to a number that is at most the binary64
    number [mk * 2^ek] returns zero or a finite number that is at most
    [mk * 2^ek]. *)
Lemma binary_round_aux_le s mx ex lx mk ek :
  0 <= mx -> bounded prec emax mk ek = true -> ex <= ek ->
  mx <= Zpos mk * 2 ^ (ek - ex) ->
  (lx <> loc_Exact -> mx < Zpos mk * 2 ^ (ek - ex)) ->
  match binary_round_aux prec emax s mx ex lx with
  | S754_zero s' => s' = s
  | S754_finite s' m e => s' = s /\ -1074 <= e /\ mag m e <= mag mk ek
  | _ => False
  end.
Proof.
  intros Hmx Hk Hex Hle Hlt.
  destruct (bounded_spec mk ek Hk) as (Hc & Hek).
  pose proof (fexp_le_bound mx ex mk ek Hmx Hk Hex Hle) as Hf1.
  unfold binary_round_aux.
  destruct (shr_fexp prec emax mx ex lx) as [r1 e1] eqn:E1.
  destruct (shr_fexp_spec mx ex lx r1 e1 Hmx E1) as (He1 & Hr1 & _ & Hun1).
  set (n1 := Z.max 0 (fexp prec emax (Zdigits2 mx + ex) - ex)) in *.
  assert (Hn1 : 0 <= n1) by (unfold n1; lia).
  assert (He1k : e1 <= ek) by (unfold n1 in *; lia).
  assert (He1m : -1074 <= e1) by (unfold n1 in *; rewrite fexp_eq in *; lia).
  assert (Hsplit : Zpos mk * 2 ^ (ek - ex) = Zpos mk * 2 ^ (ek - e1) * 2 ^ n1).
  { rewrite <- Z.mul_assoc, <- Z.pow_add_r by lia. do 2 f_equal. lia. }
  assert (Hu1 : under r1 (Zpos mk * 2 ^ (ek - e1))).
  { apply Hun1; rewrite <- Hsplit; assumption. }
  pose proof (round_nearest_even_le r1 _ Hr1 Hu1) as [Hm2l Hm2u].
  set (m2 := round_nearest_even (shr_m r1) (loc_of_shr_record r1)) in *.
  assert (Hm2 : 0 <= m2) by lia.
  pose proof (fexp_le_bound m2 e1 mk ek Hm2 Hk He1k Hm2u) as Hf2.
  destruct (shr_fexp prec emax m2 e1 loc_Exact) as [r3 e3] eqn:E3.
  destruct (shr_fexp_spec m2 e1 loc_Exact r3 e3 Hm2 E3) as (He3 & Hr3 & Hfl3 & _).
  set (n3 := Z.max 0 (fexp prec emax (Zdigits2 m2 + e1) - e1)) in *.
  assert (Hn3 : 0 <= n3) by (unfold n3; lia).
  destruct (shr_m r3) as [|m3|m3] eqn:Em3; [reflexivity| |lia].
  assert (He3k : e3 <= ek) by (unfold n3 in *; lia).
  change (emax - prec) with 971.
  destruct (Z.leb_spec e3 971) as [_|]; [|lia].
  split; [reflexivity|]. split; [lia|].
  unfold mag. subst e3.
  replace (e1 + n3 + 1074) with (n3 + (e1 + 1074)) by lia.
  replace (ek + 1074) with ((ek - e1) + (e1 + 1074)) by lia.
  rewrite (Z.pow_add_r 2 n3 (e1 + 1074)),
          (Z.pow_add_r 2 (ek - e1) (e1 + 1074)) by lia.
  rewrite !Z.mul_assoc.
  apply Z.mul_le_mono_nonneg_r; [pow_nonneg|]. lia.
Qed.

(** Two magnitudes compare as their numbers of digits plus exponent allow. *)
Lemma mag_le_digits m e mk ek :
  -1074 <= e -> -1074 <= ek -> mag m e <= mag mk ek ->
  Zpos (digits2_pos m) + e <= Zpos (digits2_pos mk) + ek.
Proof.
  unfold mag. intros He Hek Hle.
  pose proof (digits2_pos_bounds m) as [Hl _].
  pose proof (digits2_pos_bounds mk) as [_ Hu].
  destruct (Z.leb_spec (Zpos (digits2_pos m) + e) (Zpos (digits2_pos mk) + ek))
    as [|Hgt]; [assumption|exfalso].
  assert (H1 : 2 ^ (Zpos (digits2_pos mk) + (ek + 1074))
               <= 2 ^ ((Zpos (digits2_pos m) - 1) + (e + 1074)))
    by (apply Z.pow_le_mono_r; lia).
  rewrite (Z.pow_add_r 2 (Zpos (digits2_pos mk))),
          (Z.pow_add_r 2 (Zpos (digits2_pos m) - 1)) in H1 by lia.
  assert (0 < 2 ^ (e + 1074)) by pow_pos.
  assert (0 < 2 ^ (ek + 1074)) by pow_pos.
  assert (Zpos mk * 2 ^ (ek + 1074) < 2 ^ Zpos (digits2_pos mk) * 2 ^ (ek + 1074))
    by (apply Z.mul_lt_mono_pos_r; lia).
  assert (2 ^ (Zpos (digits2_pos m) - 1) * 2 ^ (e + 1074) <= Zpos m * 2 ^ (e + 1074))
    by (apply Z.mul_le_mono_nonneg_r; lia).
  lia.
Qed.

Lemma iter_xO m d : Zpos (Pos.iter xO m d) = Zpos m * 2 ^ Zpos d.
Proof.
  induction d as [|d IH] using Pos.peano_ind.
  - cbn [Pos.iter]. now rewrite Pos2Z.inj_xO, Z.pow_1_r, Z.mul_comm.
  - rewrite Pos.iter_succ, Pos2Z.inj_xO, IH, Pos2Z.inj_succ, Z.pow_succ_r by lia.
    lia.
Qed.

Lemma shl_align_spec mx ex ex' :
  snd (shl_align mx ex ex') = Z.min ex ex' /\
  Zpos (fst (shl_align mx ex ex'))
  = Zpos mx * 2 ^ (ex - snd (shl_align mx ex ex')).
Proof.
  unfold shl_align. destruct (ex' - ex) as [|d|d] eqn:E; cbn [fst snd].
  - split; [lia|]. now rewrite Z.sub_diag, Z.mul_1_r.
  - split; [lia|]. now rewrite Z.sub_diag, Z.mul_1_r.
  - split; [lia|]. rewrite iter_xO. do 2 f_equal. lia.
Qed.

(** Cancelling the common factor [2^(e + 1074)] of two magnitudes. *)
Lemma mag_le_cancel (a b : Z) e ea eb :
  -1074 <= e -> e <= ea -> e <= eb ->
  a * 2 ^ (ea + 1074) <= b * 2 ^ (eb + 1074) ->
  a * 2 ^ (ea - e) <= b * 2 ^ (eb - e).
Proof.
  intros He Hea Heb Hle.
  replace (ea + 1074) with ((ea - e) + (e + 1074)) in Hle by lia.
  replace (eb + 1074) with ((eb - e) + (e + 1074)) in Hle by lia.
  rewrite (Z.pow_add_r 2 (ea - e)), (Z.pow_add_r 2 (eb - e)) in Hle by lia.
  rewrite !Z.mul_assoc in Hle.
  apply Z.mul_le_mono_pos_r in Hle; [assumption|].
  pow_pos.
Qed.

Lemma binary_round_le s mx ex mk ek :
  bounded prec emax mk ek = true -> -1074 <= ex ->
  mag mx ex <= mag mk ek ->
  match binary_round prec emax s mx ex with
  | S754_zero s' => s' = s
  | S754_finite s' m e => s' = s /\ -1074 <= e /\ mag m e <= mag mk ek
  | _ => False
  end.
Proof.
  intros Hk Hex Hle. destruct (bounded_spec mk ek Hk) as (Hc & Hek).
  assert (Hekm : -1074 <= ek) by lia.
  pose proof (mag_le_digits mx ex mk ek Hex Hekm Hle) as Hd.
  unfold binary_round.
  pose proof (shl_align_spec mx ex (fexp prec emax (Zpos (digits2_pos mx) + ex)))
    as [Hez Hmz].
  destruct (shl_align mx ex _) as [mz ez]; cbn [fst snd] in *.
  rewrite fexp_eq in Hez.
  apply binary_round_aux_le; try assumption; try lia.
  - rewrite Hmz. apply (mag_le_cancel _ _ ez ex ek); try lia. exact Hle.
  - congruence.
Qed.

Lemma mag_nonneg m e : 0 <= mag m e.
Proof. unfold mag. apply Z.mul_nonneg_nonneg; [lia|pow_nonneg]. Qed.

Lemma abs_cond_Zopp s z : Z.abs (cond_Zopp s z) = Z.abs z.
Proof. destruct s; cbn; [apply Z.abs_opp|reflexivity]. Qed.

(** The shape [binary_round] and [binary_round_aux] results have in the
    lemmas above, as a bound. *)
Lemma rounded_within s mk ek (r : spec_float) :
  match r with
  | S754_zero s' => s' = s
  | S754_finite s' m e => s' = s /\ -1074 <= e /\ mag m e <= mag mk ek
  | _ => False
  end ->
  within (mag mk ek) r /\ (s = false -> nonneg r).
Proof.
  unfold within. pose proof (mag_nonneg mk ek).
  destruct r as [s'|s'| |s' m e]; cbn [fin sval nonneg].
  - intros _. cbn. split; [split; [exact I|assumption]|auto].
  - intros [].
  - intros [].
  - intros (Hs & He & Hle). rewrite abs_cond_Zopp.
    pose proof (mag_nonneg m e). subst s'.
    split; [split; [assumption|lia]|auto].
Qed.

Lemma binary_normalize_le z ez mk ek :
  bounded prec emax mk ek = true -> -1074 <= ez ->
  Z.abs z * 2 ^ (ez + 1074) <= mag mk ek ->
  within (mag mk ek) (binary_normalize prec emax z ez false).
Proof.
  intros Hk Hez Hle. pose proof (mag_nonneg mk ek).
  destruct z as [|p|p]; cbn [binary_normalize].
  - split; [exact I|exact H].
  - apply (rounded_within false). now apply binary_round_le.
  - apply (rounded_within true). now apply binary_round_le.
Qed.

Lemma shl_align_mag m e ez :
  -1074 <= ez -> ez <= e ->
  Zpos (fst (shl_align m e ez)) * 2 ^ (ez + 1074) = mag m e.
Proof.
  intros Hez He. destruct (shl_align_spec m e ez) as [Hs Hm].
  rewrite Hm, Hs, Z.min_r by lia. unfold mag.
  rewrite <- Z.mul_assoc, <- Z.pow_add_r by lia. do 2 f_equal. lia.
Qed.

Lemma cond_Zopp_mul s a b : cond_Zopp s a * b = cond_Zopp s (a * b).
Proof. destruct s; cbn; lia. Qed.

Lemma abs_scale z e : -1074 <= e ->
  Z.abs z * 2 ^ (e + 1074) = Z.abs (z * 2 ^ (e + 1074)).
Proof.
  intros He. rewrite Z.abs_mul. f_equal. symmetry. apply Z.abs_eq.
  pow_nonneg.
Qed.

(** *** Addition and subtraction *)

Lemma SFadd_le x y mk ek :
  bounded prec emax mk ek = true -> fin x -> fin y ->
  Z.abs (sval x + sval y) <= mag mk ek ->
  within (mag mk ek) (SFadd prec emax x y).
Proof.
  intros Hk Hx Hy Hle. pose proof (mag_nonneg mk ek).
  destruct x as [sx|sx| |sx mx ex], y as [sy|sy| |sy my ey];
    cbn [fin] in Hx, Hy; try contradiction; cbn [SFadd].
  - destruct sx, sy; split; cbn; auto; lia.
  - split; [exact Hy|exact Hle].
  - split; [exact Hx|]. cbn [sval] in Hle. now rewrite Z.add_0_r in Hle.
  - apply binary_normalize_le; [assumption|lia|].
    rewrite abs_scale, Z.mul_add_distr_r, !cond_Zopp_mul by lia.
    rewrite !shl_align_mag by lia. exact Hle.
Qed.

Lemma SFsub_le x y mk ek :
  bounded prec emax mk ek = true -> fin x -> fin y ->
  Z.abs (sval x - sval y) <= mag mk ek ->
  within (mag mk ek) (SFsub prec emax x y).
Proof.
  intros Hk Hx Hy Hle. pose proof (mag_nonneg mk ek).
  destruct x as [sx|sx| |sx mx ex], y as [sy|sy| |sy my ey];
    cbn [fin] in Hx, Hy; try contradiction; cbn [SFsub].
  - destruct sx, sy; split; cbn; auto; lia.
  - split; [exact Hy|]. cbn [sval] in *. rewrite Z.sub_0_l, Z.abs_opp in Hle.
    now rewrite abs_cond_Zopp in *.
  - split; [exact Hx|]. cbn [sval] in Hle. now rewrite Z.sub_0_r in Hle.
  - apply binary_normalize_le; [assumption|lia|].
    rewrite abs_scale, Z.mul_sub_distr_r, !cond_Zopp_mul by lia.
    rewrite !shl_align_mag by lia. exact Hle.
Qed.

(** *** Multiplication *)

Lemma SFmul_le sx mx ex sy my ey mk ek :
  bounded prec emax mk ek = true ->
  -1074 <= ex -> -1074 <= ey -> ex + ey <= ek ->
  mag mx ex * mag my ey <= mag mk ek * 2 ^ 1074 ->
  within (mag mk ek)
    (SFmul prec emax (S754_finite sx mx ex) (S754_finite sy my ey)) /\
  (xorb sx sy = false ->
   nonneg (SFmul prec emax (S754_finite sx mx ex) (S754_finite sy my ey))).
Proof.
  intros Hk Hex Hey He Hle. cbn [SFmul].
  apply rounded_within. apply binary_round_aux_le; try assumption; try lia.
  2: congruence.
  destruct (bounded_spec mk ek Hk) as (Hc & Hek).
  rewrite Pos2Z.inj_mul.
  unfold mag in Hle.
  assert (Hp : 0 < 2 ^ (ex + ey + 2148)) by pow_pos.
  apply (Z.mul_le_mono_pos_r _ _ _ Hp).
  replace (Zpos mx * Zpos my * 2 ^ (ex + ey + 2148))
    with (Zpos mx * 2 ^ (ex + 1074) * (Zpos my * 2 ^ (ey + 1074))).
  2:{ replace (ex + ey + 2148) with ((ex + 1074) + (ey + 1074)) by lia.
      rewrite (Z.pow_add_r 2 (ex + 1074)) by lia. ring. }
  replace (Zpos mk * 2 ^ (ek - (ex + ey)) * 2 ^ (ex + ey + 2148))
    with (Zpos mk * 2 ^ (ek + 1074) * 2 ^ 1074).
  2:{ rewrite <- !Z.mul_assoc, <- !Z.pow_add_r by lia. do 2 f_equal. lia. }
  exact Hle.
Qed.

(** *** Division of a positive number by one that is not smaller *)

Lemma one_bounded : bounded prec emax one_m (-52) = true.
Proof. reflexivity. Qed.

Lemma mag_one : mag one_m (-52) = 2 ^ 1074.
Proof.
  unfold mag, one_m. change 4503599627370496 with (2 ^ 52).
  rewrite <- Z.pow_add_r by lia. reflexivity.
Qed.

Lemma SFdiv_le m1 e1 m2 e2 :
  -1074 <= e1 -> -1074 <= e2 -> mag m1 e1 <= mag m2 e2 ->
  within (2 ^ 1074)
    (SFdiv prec emax (S754_finite false m1 e1) (S754_finite false m2 e2)) /\
  nonneg (SFdiv prec emax (S754_finite false m1 e1) (S754_finite false m2 e2)).
Proof.
  intros He1 He2 Hle. cbn [SFdiv xorb].
  pose proof (mag_le_digits m1 e1 m2 e2 He1 He2 Hle) as Hd.
  unfold SFdiv_core_binary. cbn [Zdigits2].
  set (e' := Z.min (fexp prec emax (Zpos (digits2_pos m1) + e1
                                    - (Zpos (digits2_pos m2) + e2))) (e1 - e2)).
  assert (He' : e' <= -53 /\ e' <= e1 - e2)
    by (unfold e'; rewrite fexp_eq; lia).
  set (m' := match e1 - e2 - e' with
             | 0 => Zpos m1
             | Zpos _ => Z.shiftl (Zpos m1) (e1 - e2 - e')
             | Zneg _ => 0
             end).
  assert (Hm' : m' = Zpos m1 * 2 ^ (e1 - e2 - e')).
  { unfold m'. destruct (e1 - e2 - e') as [|p|p] eqn:E; [|
      rewrite Z.shiftl_mul_pow2 by lia; reflexivity | lia].
    now rewrite Z.mul_1_r. }
  pose proof (Z_div_mod m' (Zpos m2) ltac:(lia)) as Hdm.
  destruct (Z.div_eucl m' (Zpos m2)) as [q r]. destruct Hdm as [Hq Hr].
  assert (Hm'u : m' <= Zpos m2 * 2 ^ (- e')).
  { rewrite Hm'.
    assert (Hp : 0 < 2 ^ (e2 + 1074)) by pow_pos.
    apply (Z.mul_le_mono_pos_r _ _ _ Hp).
    rewrite <- !Z.mul_assoc, <- !Z.pow_add_r by lia.
    replace (e1 - e2 - e' + (e2 + 1074)) with ((e1 + 1074) + (- e')) by lia.
    replace (- e' + (e2 + 1074)) with ((e2 + 1074) + (- e')) by lia.
    rewrite (Z.pow_add_r 2 (e1 + 1074)), (Z.pow_add_r 2 (e2 + 1074)) by lia.
    rewrite !Z.mul_assoc. apply Z.mul_le_mono_nonneg_r; [|exact Hle].
    pow_nonneg. }
  assert (Hpe : 0 < 2 ^ (- e')) by pow_pos.
  assert (Hq0 : 0 <= q) by nia.
  rewrite <- mag_one.
  enough (Hround :
    match binary_round_aux prec emax false q e' (new_location (Zpos m2) r) with
    | S754_zero s' => s' = false
    | S754_finite s' m e => s' = false /\ -1074 <= e /\ mag m e <= mag one_m (-52)
    | _ => False
    end).
  { destruct (rounded_within false _ _ _ Hround) as [Hw Hn].
    split; [exact Hw|exact (Hn eq_refl)]. }
  apply binary_round_aux_le.
  - exact Hq0.
  - exact one_bounded.
  - lia.
  - unfold one_m. change 4503599627370496 with (2 ^ 52).
    rewrite <- Z.pow_add_r by lia.
    replace (52 + (-52 - e')) with (- e') by lia. nia.
  - intros Hloc. unfold one_m. change 4503599627370496 with (2 ^ 52).
    rewrite <- Z.pow_add_r by lia.
    replace (52 + (-52 - e')) with (- e') by lia.
    assert (r <> 0) by (intros ->; apply Hloc; unfold new_location,
      new_location_even, new_location_odd; now destruct (Z.even _)).
    nia.
Qed.

(** *** Integers below 2^53 convert exactly *)

Lemma digits2_shift p k : 0 <= k ->
  forall q, Zpos q = Zpos p * 2 ^ k ->
  Zpos (digits2_pos q) = Zpos (digits2_pos p) + k.
Proof.
  intros Hk q Hq. apply digits2_unique. rewrite Hq.
  pose proof (digits2_pos_bounds p) as [Hl Hu].
  assert (0 < 2 ^ k) by pow_pos.
  replace (Zpos (digits2_pos p) + k - 1) with ((Zpos (digits2_pos p) - 1) + k)
    by lia.
  rewrite (Z.pow_add_r 2 (Zpos (digits2_pos p) - 1)),
          (Z.pow_add_r 2 (Zpos (digits2_pos p))) by lia.
  split; [apply Z.mul_le_mono_nonneg_r|apply Z.mul_lt_mono_pos_r]; lia.
Qed.

Lemma binary_round_aux_canonical s m e :
  bounded prec emax m e = true ->
  binary_round_aux prec emax s (Zpos m) e loc_Exact = S754_finite s m e.
Proof.
  intros Hb. destruct (bounded_spec m e Hb) as [Hc He].
  assert (Hs : shr_fexp prec emax (Zpos m) e loc_Exact
               = (Build_shr_record (Zpos m) false false, e)).
  { unfold shr_fexp. cbn [Zdigits2]. rewrite fexp_eq.
    replace (Z.max (Zpos (digits2_pos m) + e - 53) (-1074) - e) with 0 by lia.
    reflexivity. }
  unfold binary_round_aux. rewrite Hs. cbn [shr_m loc_of_shr_record round_nearest_even].
  rewrite Hs. cbn [shr_m]. change (emax - prec) with 971.
  destruct (Z.leb_spec e 971); [reflexivity|lia].
Qed.

Lemma binary_round_int s p :
  Zpos p < 2 ^ 53 ->
  exists m e,
    binary_round prec emax s p 0 = S754_finite s m e /\
    -1074 <= e <= 0 /\ bounded prec emax m e = true /\
    mag m e = Zpos p * 2 ^ 1074.
Proof.
  intros Hp. pose proof (digits2_pos_bounds p) as [Hl Hu].
  assert (Hd : Zpos (digits2_pos p) <= 53).
  { destruct (Z.leb_spec (Zpos (digits2_pos p)) 53); [assumption|].
    assert (2 ^ 53 <= 2 ^ (Zpos (digits2_pos p) - 1))
      by (apply Z.pow_le_mono_r; lia). lia. }
  unfold binary_round.
  pose proof (shl_align_spec p 0 (fexp prec emax (Zpos (digits2_pos p) + 0)))
    as [Hez Hmz].
  destruct (shl_align p 0 _) as [mz ez]; cbn [fst snd] in *.
  rewrite fexp_eq in Hez.
  assert (Hez' : ez = Zpos (digits2_pos p) - 53) by lia.
  assert (Hdz : Zpos (digits2_pos mz) = 53).
  { rewrite (digits2_shift p (0 - ez)) by (lia || assumption). lia. }
  assert (Hb : bounded prec emax mz ez = true).
  { unfold bounded, canonical_mantissa. rewrite fexp_eq, Hdz.
    apply andb_true_iff. split; [apply Z.eqb_eq|apply Z.leb_le]; [lia|].
    change (emax - prec) with 971. lia. }
  exists mz, ez. split; [now apply binary_round_aux_canonical|].
  split; [lia|]. split; [exact Hb|].
  unfold mag. rewrite Hmz, <- Z.mul_assoc, <- Z.pow_add_r by lia.
  do 2 f_equal. lia.
Qed.

(** *** Comparison *)

Lemma mag_le_cases m e mk ek :
  bounded prec emax m e = true -> bounded prec emax mk ek = true ->
  mag m e <= mag mk ek ->
  e < ek \/ (e = ek /\ Zpos m <= Zpos mk).
Proof.
  intros Hb Hk Hle.
  destruct (bounded_spec m e Hb) as [Hc He].
  destruct (bounded_spec mk ek Hk) as [Hck Hek].
  unfold mag in Hle.
  destruct (Z.lt_trichotomy e ek) as [Hlt|[Heq|Hgt]]; [now left|right|exfalso].
  - subst ek. split; [reflexivity|].
    apply Z.mul_le_mono_pos_r in Hle; [assumption|].
    pow_pos.
  - pose proof (digits2_pos_bounds m) as [Hl _].
    pose proof (digits2_pos_bounds mk) as [_ Hu].
    assert (Hdm : Zpos (digits2_pos m) = 53) by lia.
    assert (Hdk : Zpos (digits2_pos mk) <= 53) by lia.
    rewrite Hdm in Hl. change (2 ^ (53 - 1)) with (2 ^ 52) in Hl.
    assert (Hmk : Zpos mk < 2 ^ 53).
    { eapply Z.lt_le_trans; [exact Hu|]. apply Z.pow_le_mono_r; lia. }
    replace (e + 1074) with ((e - ek) + (ek + 1074)) in Hle by lia.
    rewrite (Z.pow_add_r 2 (e - ek)), Z.mul_assoc in Hle by lia.
    apply Z.mul_le_mono_pos_r in Hle; [|pow_pos].
    assert (2 ^ 1 <= 2 ^ (e - ek)) by (apply Z.pow_le_mono_r; lia).
    change (2 ^ 1) with 2 in *. change (2 ^ 53) with (2 * 2 ^ 52) in Hmk.
    nia.
Qed.

(** A valid number of magnitude at most [mk * 2^ek] lies between
    [-mk * 2^ek] and [mk * 2^ek] for the comparison of binary64, and so
    does its absolute value. *)
Lemma within_SFleb x mk ek :
  valid_binary x = true -> bounded prec emax mk ek = true ->
  within (mag mk ek) x ->
  SFleb (SFabs x) (S754_finite false mk ek) = true /\
  SFleb x (S754_finite false mk ek) = true /\
  SFleb (S754_finite true mk ek) x = true.
Proof.
  intros Hv Hk [Hf Hle].
  destruct x as [s|s| |s m e]; cbn [fin] in Hf; try contradiction.
  - destruct s; repeat split; reflexivity.
  - cbn [sval] in Hle. rewrite abs_cond_Zopp in Hle.
    rewrite Z.abs_eq in Hle by apply mag_nonneg.
    cbn [SpecFloat.valid_binary] in Hv.
    destruct (mag_le_cases m e mk ek Hv Hk Hle) as [Hlt|[-> Hmm]];
      unfold SFleb, SFcompare; cbn [SFabs].
    + apply Z.compare_lt_iff in Hlt as Hc. rewrite Hc.
      apply Z.compare_gt_iff in Hlt as Hc'. rewrite Hc'.
      destruct s; repeat split; reflexivity.
    + rewrite Z.compare_refl.
      change (Pos.compare_cont Eq m mk) with (Pos.compare m mk).
      change (Pos.compare_cont Eq mk m) with (Pos.compare mk m).
      rewrite (Pos.compare_antisym m mk).
      destruct (Pos.compare_spec m mk); cbn [CompOpp];
        destruct s; repeat split; try reflexivity; lia.
Qed.

End FloatBounds.

(** * Voss-McCartney streaming: proofs *)

Module StreamingFacts.
Import Streaming Binary64 FloatBounds.
Local Open Scope Z_scope.
#[local] Set Warnings "-inexact-float".

(** ** The arithmetic of one draw and of the scaled sum *)

Lemma prim_bounded x s m e :
  Prim2SF x = S754_finite s m e -> bounded prec emax m e = true.
Proof.
  intros H. pose proof (Prim2SF_valid x) as V. rewrite H in V. exact V.
Qed.

Lemma within_mono b b' x : b <= b' -> within b x -> within b' x.
Proof. intros Hb [Hf Hx]. split; [assumption|lia]. Qed.

Lemma nonneg_sval x : nonneg x -> 0 <= sval x.
Proof.
  destruct x as [s|s| |s m e]; cbn; try lia; try tauto.
  intros ->. apply mag_nonneg.
Qed.

(** An exponent is below what the magnitude allows. *)
Lemma mag_lt_exp m e k : -1074 <= e -> mag m e < 2 ^ k -> e + 1074 < k.
Proof.
  unfold mag. intros He Hlt.
  destruct (Z.ltb_spec (e + 1074) k); [assumption|exfalso].
  destruct (Z.ltb_spec k 0).
  - rewrite (Z.pow_neg_r 2 k) in Hlt by lia.
    assert (0 < 2 ^ (e + 1074)) by pow_pos. nia.
  - assert (2 ^ k <= 2 ^ (e + 1074)) by (apply Z.pow_le_mono_r; lia). nia.
Qed.

Lemma to_double_0 : Prim2SF (to_double 0) = S754_zero false.
Proof. reflexivity. Qed.

Lemma to_double_pos n :
  0 < n < 2 ^ 53 ->
  exists m e,
    Prim2SF (to_double n) = S754_finite false m e /\
    -1074 <= e <= 0 /\ bounded prec emax m e = true /\
    mag m e = n * 2 ^ 1074.
Proof.
  intros Hn. unfold to_double.
  rewrite of_uint63_spec, Uint63.of_Z_spec, Z.mod_small.
  - destruct n as [|p|p]; try lia. cbn [binary_normalize].
    apply binary_round_int. lia.
  - change wB with (2 ^ 63). split; [lia|].
    eapply Z.lt_trans; [apply Hn|]. reflexivity.
Qed.

(** Every integer from 1 below 2^53 is a binary64 number. *)
Lemma int_is_binary64 k :
  0 < k < 2 ^ 53 ->
  exists mk ek, bounded prec emax mk ek = true /\ mag mk ek = k * 2 ^ 1074.
Proof.
  intros Hk. destruct (to_double_pos k Hk) as (m & e & _ & _ & Hb & Hm).
  now exists m, e.
Qed.

Lemma Prim2SF_one : Prim2SF 1%float = S754_finite false one_m (-52).
Proof. reflexivity. Qed.

Lemma Prim2SF_two : Prim2SF 2%float = S754_finite false one_m (-51).
Proof. reflexivity. Qed.

Lemma two_bounded : bounded prec emax one_m (-51) = true.
Proof. reflexivity. Qed.

Lemma mag_two : mag one_m (-51) = 2 * 2 ^ 1074.
Proof.
  unfold mag, one_m. change 4503599627370496 with (2 ^ 52).
  rewrite <- Z.pow_add_r by lia. reflexivity.
Qed.

(** [(double)r / RAND_MAX] is in [0, 1]. *)
Lemma quotient_within M r :
  0 < M < 2 ^ 53 -> 0 <= r <= M ->
  within (2 ^ 1074) (Prim2SF (to_double r / to_double M)%float) /\
  nonneg (Prim2SF (to_double r / to_double M)%float).
Proof.
  intros HM Hr. rewrite FloatAxioms.div_spec. unfold SF64div.
  destruct (to_double_pos M HM) as (m2 & e2 & EM & He2 & Hb2 & Hm2).
  rewrite EM.
  destruct (Z.eq_dec r 0) as [->|Hr0].
  - rewrite to_double_0. cbn [SFdiv xorb].
    split; [split|]; cbn [fin nonneg sval Z.abs];
      first [exact I | pow_nonneg].
  - destruct (to_double_pos r ltac:(lia)) as (m1 & e1 & Er & He1 & Hb1 & Hm1).
    rewrite Er. apply SFdiv_le; [lia|lia|].
    rewrite Hm1, Hm2. apply Z.mul_le_mono_nonneg_r; [apply Z.pow_nonneg|]; lia.
Qed.

(** Doubling a number of [0, 1] gives one of [0, 2]. *)
Lemma double_within q :
  within (2 ^ 1074) (Prim2SF q) -> nonneg (Prim2SF q) ->
  within (2 * 2 ^ 1074) (Prim2SF (2 * q)%float) /\ nonneg (Prim2SF (2 * q)%float).
Proof.
  intros [Hf Hq] Hn. rewrite FloatAxioms.mul_spec, Prim2SF_two. unfold SF64mul.
  destruct (Prim2SF q) as [s|s| |s m e]; cbn [fin nonneg sval] in *;
    try contradiction.
  - cbn [SFmul xorb].
    split; [split|]; cbn [fin nonneg sval Z.abs];
      first [exact I
            | apply Z.mul_nonneg_nonneg; [lia|pow_nonneg]].
  - subst s. cbn [cond_Zopp] in Hq.
    pose proof (mag_nonneg m e) as Hm0. rewrite Z.abs_eq in Hq by assumption.
    assert (He : e + 1074 < 1075).
    { apply (mag_lt_exp m); [assumption|].
      eapply Z.le_lt_trans; [exact Hq|]. apply Z.pow_lt_mono_r; lia. }
    rewrite <- mag_two.
    destruct (SFmul_le false one_m (-51) false m e one_m (-51))
      as [Hw Hnn]; try assumption; try lia.
    + exact two_bounded.
    + apply Z.mul_le_mono_nonneg_l; [apply mag_nonneg|exact Hq].
    + split; [exact Hw|exact (Hnn eq_refl)].
Qed.

(** Taking 1 from a number of [0, 2] gives one of [-1, 1]. *)
Lemma minus_one_within t :
  within (2 * 2 ^ 1074) (Prim2SF t) -> nonneg (Prim2SF t) ->
  within (2 ^ 1074) (Prim2SF (t - 1)%float).
Proof.
  intros [Hf Ht] Hn. rewrite FloatAxioms.sub_spec, Prim2SF_one. unfold SF64sub.
  rewrite <- mag_one. apply SFsub_le.
  - exact one_bounded.
  - exact Hf.
  - cbn [fin]. lia.
  - pose proof (nonneg_sval _ Hn) as H0.
    rewrite Z.abs_eq in Ht by assumption.
    cbn [sval cond_Zopp]. rewrite mag_one. lia.
Qed.

(** The draw [2.0 * ((double)r / RAND_MAX) - 1.0] is in [-1, 1]. *)
Lemma uniform_within M r :
  0 < M < 2 ^ 53 -> 0 <= r <= M ->
  within (2 ^ 1074) (Prim2SF (uniform M r)).
Proof.
  intros HM Hr. unfold uniform.
  destruct (quotient_within M r HM Hr) as [Hq Hqn].
  destruct (double_within _ Hq Hqn) as [Ht Htn].
  exact (minus_one_within _ Ht Htn).
Qed.

(** Adding a number of [-1, 1] to one of [-k, k] gives one of
    [-(k+1), k+1]. *)
Lemma add_within k acc x :
  0 <= k -> k + 1 < 2 ^ 53 ->
  within (k * 2 ^ 1074) (Prim2SF acc) -> within (2 ^ 1074) (Prim2SF x) ->
  within ((k + 1) * 2 ^ 1074) (Prim2SF (acc + x)%float).
Proof.
  intros Hk Hk1 [Hfa Ha] [Hfx Hx].
  destruct (int_is_binary64 (k + 1) ltac:(lia)) as (mk & ek & Hb & Hm).
  rewrite FloatAxioms.add_spec. unfold SF64add. rewrite <- Hm.
  apply SFadd_le; try assumption.
  rewrite Hm. pose proof (Z.abs_triangle (sval (Prim2SF acc)) (sval (Prim2SF x))).
  lia.
Qed.

Lemma fold_add_within l : forall k acc,
  0 <= k -> k + Z.of_nat (length l) < 2 ^ 53 ->
  within (k * 2 ^ 1074) (Prim2SF acc) ->
  Forall unit_range l ->
  within ((k + Z.of_nat (length l)) * 2 ^ 1074)
    (Prim2SF (fold_left PrimFloat.add l acc)).
Proof.
  induction l as [|x l IH]; intros k acc Hk Hlen Hacc Hl.
  - cbn [length fold_left Z.of_nat]. now rewrite Z.add_0_r.
  - cbn [fold_left]. inversion Hl as [|? ? Hx Hl']; subst.
    cbn [length] in *. rewrite Nat2Z.inj_succ in *.
    replace (k + Z.succ (Z.of_nat (length l)))
      with ((k + 1) + Z.of_nat (length l)) by lia.
    apply IH; try lia; [|assumption].
    apply add_within; try assumption; lia.
Qed.

(** The sum of ten numbers of [-1, 1] is in [-10, 10]. *)
Lemma sum_sources_within srcs :
  Forall unit_range srcs ->
  within (10 * 2 ^ 1074) (Prim2SF (sum_sources srcs)).
Proof.
  intros Hs. unfold sum_sources.
  assert (Hlen : (length (firstn N_SOURCES srcs) <= 10)%nat)
    by (rewrite length_firstn; unfold N_SOURCES; lia).
  apply (within_mono ((0 + Z.of_nat (length (firstn N_SOURCES srcs))) * 2 ^ 1074)).
  - apply Z.mul_le_mono_nonneg_r; [apply Z.pow_nonneg|]; lia.
  - apply fold_add_within.
    + lia.
    + assert (10 < 2 ^ 53) by reflexivity. lia.
    + change (Prim2SF 0) with (S754_zero false).
      split; [exact I|]. cbn [sval Z.abs]. lia.
    + apply Forall_forall. intros x Hx.
      apply (proj1 (Forall_forall _ srcs) Hs).
      rewrite <- (firstn_skipn N_SOURCES srcs). apply in_or_app. now left.
Qed.

Lemma Prim2SF_scale :
  Prim2SF (TARGET_RMS / RAW_RMS)%float = S754_finite false scale_m (-55).
Proof. reflexivity. Qed.

Lemma Prim2SF_peak :
  Prim2SF (10 * TARGET_RMS / RAW_RMS)%float = S754_finite false peak_m (-52).
Proof. reflexivity. Qed.

Lemma peak_bounded : bounded prec emax peak_m (-52) = true.
Proof. reflexivity. Qed.

Lemma mag_peak : mag peak_m (-52) * 2 ^ 1074 = 10 * 2 ^ 1074 * mag scale_m (-55).
Proof. vm_compute. reflexivity. Qed.

(** Scaling a sum of [-10, 10] by [TARGET_RMS / RAW_RMS] gives a number
    whose magnitude is at most that of [10 * TARGET_RMS / RAW_RMS]. *)
Lemma scaled_within sum :
  within (10 * 2 ^ 1074) (Prim2SF sum) ->
  within (mag peak_m (-52)) (Prim2SF (sum * (TARGET_RMS / RAW_RMS))%float).
Proof.
  intros [Hf Hs]. rewrite FloatAxioms.mul_spec, Prim2SF_scale. unfold SF64mul.
  destruct (Prim2SF sum) as [s|s| |s m e]; cbn [fin sval] in *;
    try contradiction.
  - cbn [SFmul]. split; [exact I|]. cbn [sval Z.abs]. apply mag_nonneg.
  - rewrite abs_cond_Zopp, Z.abs_eq in Hs by apply mag_nonneg.
    assert (He : e + 1074 < 1078).
    { apply (mag_lt_exp m); [assumption|].
      eapply Z.le_lt_trans; [exact Hs|].
      change 1078 with (4 + 1074). rewrite Z.pow_add_r by lia.
      apply Z.mul_lt_mono_pos_r; [pow_pos|reflexivity]. }
    apply SFmul_le; try lia.
    + exact peak_bounded.
    + rewrite mag_peak. apply Z.mul_le_mono_nonneg_r; [apply mag_nonneg|exact Hs].
Qed.

(** From a bound in units to the comparisons of the C program. *)
Lemma within_leb x k mk ek :
  Prim2SF k = S754_finite false mk ek ->
  within (mag mk ek) (Prim2SF x) ->
  (abs x <=? k)%float = true /\
  (x <=? k)%float = true /\
  (- k <=? x)%float = true.
Proof.
  intros Hk Hx.
  rewrite !FloatAxioms.leb_spec, FloatAxioms.abs_spec, FloatAxioms.opp_spec, Hk. cbn [SFopp negb].
  apply within_SFleb; [apply Prim2SF_valid| |assumption].
  exact (prim_bounded k _ _ _ Hk).
Qed.

(** ** The update pattern *)

(** The bit test of the source is the divisibility test of its comment. *)
Lemma due_mod counter i :
  (i < 64)%nat -> 0 <= counter ->
  due counter i = (counter mod 2 ^ Z.of_nat i =? 0).
Proof.
  intros Hi Hc. unfold due, ulong, ULONG_BITS.
  rewrite Z.shiftl_1_l.
  assert (Hp : 0 < 2 ^ Z.of_nat i < 2 ^ 64).
  { split; [pow_pos|apply Z.pow_lt_mono_r; lia]. }
  rewrite (Z.mod_small (2 ^ Z.of_nat i)) by lia.
  rewrite Z.mod_small by lia.
  rewrite <- Z.land_ones by lia. unfold Z.ones.
  now rewrite Z.shiftl_1_l, Z.sub_1_r.
Qed.

Lemma store_length l : forall i v, length (store l i v) = length l.
Proof. induction l as [|h t IH]; intros [|i] v; cbn; auto. Qed.

Lemma nth_store_eq l : forall i v d,
  (i < length l)%nat -> nth i (store l i v) d = v.
Proof.
  induction l as [|h t IH]; intros [|i] v d Hi; cbn in *; try lia; auto.
  apply IH. lia.
Qed.

Lemma nth_store_neq l : forall i j v d,
  i <> j -> nth j (store l i v) d = nth j l d.
Proof.
  induction l as [|h t IH]; intros [|i] [|j] v d Hij; cbn; auto; try lia.
Qed.

Lemma due_count_S counter i n :
  due_count counter i (S n)
  = ((if due counter i then 1 else 0) + due_count counter (S i) n)%nat.
Proof. unfold due_count. cbn [seq filter]. now destruct (due counter i). Qed.

Section Loops.

Variable RAND_MAX : Z.
Variable rand_stream : Z -> nat -> Z.

(** What the update loop does to the sources from [i] on and to the
    generator. *)
Lemma update_loop_spec counter d fuel : forall i srcs g,
  (i + fuel <= length srcs)%nat ->
  let r := update_loop RAND_MAX rand_stream fuel i counter srcs g in
  length (fst r) = length srcs /\
  snd r = Rng (rng_seed g) (rng_calls g + due_count counter i fuel) /\
  forall j,
    nth j (fst r) d =
    if (i <=? j)%nat && (j <? i + fuel)%nat && due counter j
    then draw RAND_MAX rand_stream g (due_count counter i (j - i))
    else nth j srcs d.
Proof.
  induction fuel as [|fuel IH]; intros i srcs g Hlen; cbn zeta.
  - cbn [update_loop fst snd]. split; [reflexivity|]. split.
    + destruct g. cbn. f_equal. unfold due_count. cbn. lia.
    + intros j. destruct (Nat.leb_spec i j), (Nat.ltb_spec j (i + 0)); cbn; auto; lia.
  - cbn [update_loop]. rewrite due_count_S.
    destruct (due counter i) eqn:Hd.
    + unfold rand. 
      specialize (IH (S i) (store srcs i (uniform RAND_MAX (rand_stream (rng_seed g) (rng_calls g))))
                     (Rng (rng_seed g) (S (rng_calls g)))).
      cbn zeta in IH. rewrite store_length in IH.
      destruct (IH ltac:(lia)) as (Hl & Hg & Hn).
      split; [exact Hl|]. split.
      * rewrite Hg. cbn [rng_seed rng_calls]. f_equal. lia.
      * intros j. rewrite Hn. cbn [rng_seed rng_calls].
        destruct (Nat.eq_dec i j) as [<-|Hij].
        -- destruct (Nat.leb_spec (S i) i); [lia|]. cbn [andb].
           rewrite nth_store_eq by lia.
           rewrite Nat.leb_refl. destruct (Nat.ltb_spec i (i + S fuel)); [|lia].
           cbn [andb]. rewrite Hd. unfold draw. rewrite Nat.sub_diag.
           unfold due_count. cbn. now rewrite Nat.add_0_r.
        -- rewrite nth_store_neq by assumption.
           destruct (Nat.leb_spec (S i) j), (Nat.leb_spec i j); try lia;
             cbn [andb]; auto.
           destruct (Nat.ltb_spec j (S i + fuel)), (Nat.ltb_spec j (i + S fuel));
             try lia; cbn [andb]; auto.
           destruct (due counter j); auto. unfold draw. cbn [rng_seed rng_calls].
           replace (j - i)%nat with (S (j - S i)) by lia.
           rewrite due_count_S, Hd. do 2 f_equal. lia.
    + specialize (IH (S i) srcs g). cbn zeta in IH.
      destruct (IH ltac:(lia)) as (Hl & Hg & Hn).
      split; [exact Hl|]. split; [exact Hg|].
      intros j. rewrite Hn.
      destruct (Nat.eq_dec i j) as [<-|Hij].
      * destruct (Nat.leb_spec (S i) i); [lia|]. cbn [andb].
        rewrite Hd. now rewrite andb_false_r.
      * destruct (Nat.leb_spec (S i) j), (Nat.leb_spec i j); try lia;
          cbn [andb]; auto.
        destruct (Nat.ltb_spec j (S i + fuel)), (Nat.ltb_spec j (i + S fuel));
          try lia; cbn [andb]; auto.
        destruct (due counter j); auto. unfold draw.
        replace (j - i)%nat with (S (j - S i)) by lia.
        now rewrite due_count_S, Hd.
Qed.

(** The loader overwrites everything: its result does not depend on the
    state it starts from. *)
Lemma init_flicker_noise_spec s :
  length (noise_sources s) = N_SOURCES ->
  init_flicker_noise RAND_MAX rand_stream s
  = {| noise_sources :=
         map (fun j => uniform RAND_MAX (rand_stream SEED j)) (seq 0 N_SOURCES);
       sample_counter := 0;
       initialized := true;
       rng := Rng SEED N_SOURCES |}.
Proof.
  destruct s as [l c b g]. cbn [noise_sources]. intros Hl.
  do 11 (destruct l as [|? l]; try discriminate Hl). reflexivity.
Qed.

Lemma wf_initial : wf initial_state.
Proof. repeat split; cbn; try lia; discriminate. Qed.

Lemma wf_ensure_initialized s :
  wf s ->
  wf (ensure_initialized RAND_MAX rand_stream s) /\
  initialized (ensure_initialized RAND_MAX rand_stream s) = true.
Proof.
  intros (Hl & Hc & Hi). unfold ensure_initialized.
  destruct (initialized s) eqn:E; cbn [negb].
  - split; [|exact E].
    exact (conj Hl (conj Hc (fun _ => Hi eq_refl))).
  - rewrite init_flicker_noise_spec by assumption.
    split; [|reflexivity]. unfold wf; cbn [noise_sources sample_counter rng
      initialized rng_seed rng_calls].
    rewrite length_map, length_seq. repeat split; try lia.
Qed.

(** One call, field by field. *)
Lemma dpi_flicker_noise_spec s :
  wf s ->
  let s0 := ensure_initialized RAND_MAX rand_stream s in
  let r := dpi_flicker_noise RAND_MAX rand_stream s in
  fst r = PrimFloat.mul (sum_sources (noise_sources (snd r)))
            (PrimFloat.div TARGET_RMS RAW_RMS) /\
  sample_counter (snd r) = ulong (sample_counter s0 + 1) /\
  initialized (snd r) = true /\
  rng (snd r) = Rng SEED (rng_calls (rng s0)
                          + due_count (sample_counter s0) 0 N_SOURCES) /\
  length (noise_sources (snd r)) = N_SOURCES /\
  forall j d,
    nth j (noise_sources (snd r)) d =
    if (j <? N_SOURCES)%nat && due (sample_counter s0) j
    then uniform RAND_MAX
           (rand_stream SEED (rng_calls (rng s0)
                              + due_count (sample_counter s0) 0 j))
    else nth j (noise_sources s0) d.
Proof.
  intros Hwf. destruct (wf_ensure_initialized s Hwf) as ((Hl & Hc & Hi) & Hini).
  destruct (Hi Hini) as (Hseed & Hcalls). cbn zeta.
  unfold dpi_flicker_noise.
  set (s0 := ensure_initialized RAND_MAX rand_stream s) in *.
  pose proof (fun d => update_loop_spec (sample_counter s0) d N_SOURCES 0
                (noise_sources s0) (rng s0) ltac:(cbn [Nat.add]; lia)) as Hu.
  cbn zeta in Hu.
  destruct (update_loop RAND_MAX rand_stream N_SOURCES 0 (sample_counter s0)
              (noise_sources s0) (rng s0)) as [srcs g].
  cbn [fst snd noise_sources sample_counter initialized rng] in *.
  destruct (Hu 0%float) as (Hlen & Hg & _).
  repeat split; auto.
  - now rewrite Hg, Hseed.
  - congruence.
  - intros j d. destruct (Hu d) as (_ & _ & Hn). rewrite Hn.
    cbn [Nat.leb Nat.add andb]. unfold draw. rewrite Hseed, Nat.sub_0_r.
    reflexivity.
Qed.

Lemma wf_step s :
  wf s -> wf (snd (dpi_flicker_noise RAND_MAX rand_stream s)).
Proof.
  intros Hwf.
  destruct (dpi_flicker_noise_spec s Hwf) as (_ & Hc & Hi & Hg & Hl & _).
  destruct (wf_ensure_initialized s Hwf) as ((_ & _ & Hi0) & Hini).
  destruct (Hi0 Hini) as (_ & Hcalls).
  repeat split; auto.
  - rewrite Hc. unfold ulong, ULONG_BITS. apply Z.mod_pos_bound. reflexivity.
  - rewrite Hc. unfold ulong, ULONG_BITS. apply Z.mod_pos_bound. reflexivity.
  - now rewrite Hg.
  - rewrite Hg. cbn [rng_calls]. lia.
Qed.

Lemma run_app n : forall m s,
  run RAND_MAX rand_stream (n + m) s
  = (fst (run RAND_MAX rand_stream n s)
     ++ fst (run RAND_MAX rand_stream m (snd (run RAND_MAX rand_stream n s))),
     snd (run RAND_MAX rand_stream m (snd (run RAND_MAX rand_stream n s)))).
Proof.
  induction n as [|n IH]; intros m s.
  - cbn [Nat.add run fst snd app]. now destruct (run _ _ m s).
  - cbn [Nat.add run].
    destruct (dpi_flicker_noise RAND_MAX rand_stream s) as [x s1].
    rewrite IH. destruct (run RAND_MAX rand_stream n s1) as [xs s2].
    cbn [fst snd]. now destruct (run RAND_MAX rand_stream m s2).
Qed.

Lemma after_S n :
  after RAND_MAX rand_stream (S n)
  = snd (dpi_flicker_noise RAND_MAX rand_stream (after RAND_MAX rand_stream n)).
Proof.
  unfold after. replace (S n) with (n + 1)%nat by lia. rewrite run_app.
  cbn [snd run]. 
  now destruct (dpi_flicker_noise RAND_MAX rand_stream
                  (snd (run RAND_MAX rand_stream n initial_state))).
Qed.

Lemma run_S_last n :
  fst (run RAND_MAX rand_stream (S n) initial_state)
  = fst (run RAND_MAX rand_stream n initial_state)
    ++ [sample RAND_MAX rand_stream n].
Proof.
  replace (S n) with (n + 1)%nat by lia. rewrite run_app.
  cbn [fst run]. unfold sample, after.
  now destruct (dpi_flicker_noise RAND_MAX rand_stream
                  (snd (run RAND_MAX rand_stream n initial_state))).
Qed.

(** The samples of a run from the program start are [sample 0], [sample 1],
    and so on. *)
Lemma run_samples n :
  fst (run RAND_MAX rand_stream n initial_state)
  = map (sample RAND_MAX rand_stream) (seq 0 n).
Proof.
  induction n as [|n IH]; [reflexivity|].
  now rewrite run_S_last, IH, seq_S, map_app.
Qed.

Lemma wf_after n : wf (after RAND_MAX rand_stream n).
Proof.
  induction n as [|n IH]; [exact wf_initial|].
  rewrite after_S. now apply wf_step.
Qed.

Lemma ensure_initialized_counter s :
  wf s -> (initialized s = false -> sample_counter s = 0) ->
  sample_counter (ensure_initialized RAND_MAX rand_stream s) = sample_counter s.
Proof.
  intros (Hl & _) Hc. unfold ensure_initialized.
  destruct (initialized s) eqn:E; cbn [negb]; [reflexivity|].
  rewrite init_flicker_noise_spec by assumption. cbn. symmetry. now apply Hc.
Qed.

(** The counter after [n] calls is [n], modulo 2^64. *)
Lemma sample_counter_after n :
  sample_counter (after RAND_MAX rand_stream n) = ulong (Z.of_nat n) /\
  (initialized (after RAND_MAX rand_stream n) = false -> n = 0%nat).
Proof.
  induction n as [|n [IH IHi]].
  - split; reflexivity.
  - rewrite after_S.
    destruct (dpi_flicker_noise_spec _ (wf_after n)) as (_ & Hc & Hi & _).
    split; [|intros H; rewrite Hi in H; discriminate].
    rewrite Hc, ensure_initialized_counter, IH.
    + unfold ulong. rewrite Nat2Z.inj_succ, <- Z.add_1_r.
      now rewrite Zplus_mod_idemp_l.
    + apply wf_after.
    + intros H. now rewrite (IHi H).
Qed.

(** The first call: every source is drawn anew by the update loop, from
    the draws that follow the ten of the loader. *)
Lemma first_call :
  dpi_flicker_noise RAND_MAX rand_stream initial_state
  = let srcs := map (fun j => uniform RAND_MAX (rand_stream SEED (N_SOURCES + j)%nat))
                  (seq 0 N_SOURCES) in
    (PrimFloat.mul (sum_sources srcs) (PrimFloat.div TARGET_RMS RAW_RMS),
     {| noise_sources := srcs;
        sample_counter := 1;
        initialized := true;
        rng := Rng SEED (N_SOURCES + N_SOURCES) |}).
Proof. reflexivity. Qed.

Hypothesis RAND_MAX_range : 0 < RAND_MAX < 2 ^ 53.
Hypothesis rand_range : forall seed k, 0 <= rand_stream seed k <= RAND_MAX.

Lemma sources_within_after n :
  Forall unit_range (noise_sources (after RAND_MAX rand_stream n)).
Proof.
  induction n as [|n IH].
  - cbn. repeat constructor; cbn [sval Z.abs]; pow_nonneg.
  - rewrite after_S.
    destruct (dpi_flicker_noise_spec _ (wf_after n)) as (_ & _ & _ & _ & Hl & Hn).
    apply (Forall_nth unit_range). intros j d Hj. rewrite Hn.
    destruct ((j <? N_SOURCES)%nat && due _ j).
    + apply uniform_within; [exact RAND_MAX_range|apply rand_range].
    + assert (H0 : Forall unit_range
                (noise_sources (ensure_initialized RAND_MAX rand_stream
                                  (after RAND_MAX rand_stream n)))).
      { unfold ensure_initialized.
        destruct (initialized (after RAND_MAX rand_stream n)); cbn [negb];
          [exact IH|].
        rewrite init_flicker_noise_spec by apply wf_after.
        cbn [noise_sources]. apply Forall_forall. intros x Hx.
        apply in_map_iff in Hx as (k & <- & _).
        apply uniform_within; [exact RAND_MAX_range|apply rand_range]. }
      apply (proj1 (Forall_nth unit_range _) H0).
      destruct (wf_ensure_initialized _ (wf_after n)) as ((Hl0 & _) & _).
      congruence.
Qed.

End Loops.

Lemma example_rand_stream_range seed k :
  0 <= example_rand_stream seed k <= example_RAND_MAX.
Proof.
  unfold example_rand_stream, example_RAND_MAX.
  pose proof (Z.mod_pos_bound (Nat.iter (S k) example_next (ulong seed) / 65536)
                32768 eq_refl). lia.
Qed.

Lemma example_RAND_MAX_range : 0 < example_RAND_MAX < 2 ^ 53.
Proof. split; reflexivity. Qed.

Lemma Prim2SF_ten : Prim2SF 10%float = S754_finite false 5629499534213120 (-49).
Proof. reflexivity. Qed.

Lemma mag_ten : mag 5629499534213120 (-49) = 10 * 2 ^ 1074.
Proof. vm_compute. reflexivity. Qed.

(** C2: in call number [n] (from 0), source [i] is overwritten exactly when
    the counter at the start of the call is a multiple of [2^i].  When it
    is, the new value is [2.0 * ((double)r / RAND_MAX) - 1.0] for the next
    unused value [r] of the [rand()] sequence, computed in binary64 as the
    source writes it: both operands converted, one division, one
    multiplication, one subtraction; it is a number of [-1, 1].  When it is
    not, the source keeps the value it had at the start of the call.  The
    loop calls [rand()] once per overwritten source. *)
Theorem sources_refresh_pattern RAND_MAX rand_stream n i :
  0 < RAND_MAX < 2 ^ 53 ->
  (forall seed k, 0 <= rand_stream seed k <= RAND_MAX) ->
  (i < N_SOURCES)%nat ->
  let s := after RAND_MAX rand_stream n in
  let s' := after RAND_MAX rand_stream (S n) in
  let counter := sample_counter s in
  let used := rng_calls (rng (ensure_initialized RAND_MAX rand_stream s)) in
  (due counter i = true <-> counter mod 2 ^ Z.of_nat i = 0) /\
  (counter mod 2 ^ Z.of_nat i = 0 ->
   let r := rand_stream SEED (used + due_count counter 0 i)%nat in
   let v := PrimFloat.sub
              (PrimFloat.mul 2
                 (PrimFloat.div (PrimFloat.of_uint63 (Uint63.of_Z r))
                    (PrimFloat.of_uint63 (Uint63.of_Z RAND_MAX))))
              1 in
   nth i (noise_sources s') 0%float = v /\
   (-1 <=? v)%float = true /\ (v <=? 1)%float = true) /\
  (counter mod 2 ^ Z.of_nat i <> 0 ->
   nth i (noise_sources s') 0%float = nth i (noise_sources s) 0%float) /\
  rng_calls (rng s') = (used + due_count counter 0 N_SOURCES)%nat.
Proof.
  intros HM Hr Hi s s' counter used.
  destruct (sample_counter_after RAND_MAX rand_stream n) as [Hc Hini].
  fold s in Hc, Hini.
  assert (Hc0 : 0 <= counter).
  { unfold counter. rewrite Hc. unfold ulong, ULONG_BITS.
    apply Z.mod_pos_bound. reflexivity. }
  assert (Hdue : due counter i = true <-> counter mod 2 ^ Z.of_nat i = 0).
  { rewrite due_mod by (unfold N_SOURCES in Hi; lia). apply Z.eqb_eq. }
  assert (Hcount : sample_counter (ensure_initialized RAND_MAX rand_stream s)
                   = counter).
  { apply ensure_initialized_counter; [apply wf_after|].
    intros H. rewrite Hc, (Hini H). reflexivity. }
  destruct (dpi_flicker_noise_spec RAND_MAX rand_stream s (wf_after _ _ n))
    as (_ & _ & _ & Hg & _ & Hn).
  pose proof (after_S RAND_MAX rand_stream n) as HS. fold s s' in HS.
  rewrite <- HS in Hg, Hn.
  rewrite Hcount in Hg, Hn. fold used in Hg, Hn.
  split; [exact Hdue|]. split; [|split].
  - intros Hmod r v. apply Hdue in Hmod.
    split.
    + rewrite Hn, Hmod. apply Nat.ltb_lt in Hi. now rewrite Hi.
    + pose proof (uniform_within RAND_MAX
                    (rand_stream SEED (used + due_count counter 0 i)%nat) HM (Hr _ _))
        as Hw.
      rewrite <- mag_one in Hw.
      destruct (within_leb _ 1%float _ _ Prim2SF_one Hw) as (_ & Hle & Hge).
      split; [exact Hge|exact Hle].
  - intros Hmod. rewrite Hn.
    destruct (due counter i) eqn:Hd; [exfalso; apply Hmod, Hdue; reflexivity|].
    rewrite andb_false_r. unfold ensure_initialized.
    destruct (initialized s) eqn:Es; cbn [negb]; [reflexivity|].
    exfalso. apply Hmod. unfold counter. rewrite Hc, (Hini eq_refl).
    apply Z.mod_0_l. apply Z.pow_nonzero; lia.
  - now rewrite Hg.
Qed.

(** Source 2 in the fifth call, with the example C library. *)
Lemma sources_refresh_pattern_witness :
  let s := after example_RAND_MAX example_rand_stream 4 in
  let s' := after example_RAND_MAX example_rand_stream 5 in
  let counter := sample_counter s in
  let used :=
    rng_calls (rng (ensure_initialized example_RAND_MAX example_rand_stream s)) in
  (due counter 2 = true <-> counter mod 2 ^ Z.of_nat 2 = 0) /\
  (counter mod 2 ^ Z.of_nat 2 = 0 ->
   let r := example_rand_stream SEED (used + due_count counter 0 2)%nat in
   let v := PrimFloat.sub
              (PrimFloat.mul 2
                 (PrimFloat.div (PrimFloat.of_uint63 (Uint63.of_Z r))
                    (PrimFloat.of_uint63 (Uint63.of_Z example_RAND_MAX))))
              1 in
   nth 2 (noise_sources s') 0%float = v /\
   (-1 <=? v)%float = true /\ (v <=? 1)%float = true) /\
  (counter mod 2 ^ Z.of_nat 2 <> 0 ->
   nth 2 (noise_sources s') 0%float = nth 2 (noise_sources s) 0%float) /\
  rng_calls (rng s') = (used + due_count counter 0 N_SOURCES)%nat.
Proof.
  apply (sources_refresh_pattern example_RAND_MAX example_rand_stream 4 2).
  - exact example_RAND_MAX_range.
  - exact example_rand_stream_range.
  - unfold N_SOURCES. lia.
Defined.

(** C6: whatever the C library draws, after every call each of the ten
    sources is in [-1, 1], their sum is in [-10, 10], and the magnitude of
    the returned sample is at most [10 * 0.25 / 1.757], the binary64 value
    of that expression (1.4228799089356858). *)
Theorem sample_magnitude_bounded RAND_MAX rand_stream n :
  0 < RAND_MAX < 2 ^ 53 ->
  (forall seed k, 0 <= rand_stream seed k <= RAND_MAX) ->
  let s' := after RAND_MAX rand_stream (S n) in
  Forall (fun v => (abs v <=? 1)%float = true) (noise_sources s') /\
  (abs (sum_sources (noise_sources s')) <=? 10)%float = true /\
  (abs (sample RAND_MAX rand_stream n) <=? 10 * TARGET_RMS / RAW_RMS)%float
  = true.
Proof.
  intros HM Hr s'.
  pose proof (sources_within_after RAND_MAX rand_stream HM Hr (S n)) as Hs.
  fold s' in Hs. split; [|split].
  - apply Forall_forall. intros v Hv.
    pose proof (proj1 (Forall_forall _ _) Hs v Hv) as Hw. unfold unit_range in Hw.
    rewrite <- mag_one in Hw.
    exact (proj1 (within_leb _ 1%float _ _ Prim2SF_one Hw)).
  - pose proof (sum_sources_within _ Hs) as Hw. rewrite <- mag_ten in Hw.
    exact (proj1 (within_leb _ 10%float _ _ Prim2SF_ten Hw)).
  - destruct (dpi_flicker_noise_spec RAND_MAX rand_stream _
              (wf_after RAND_MAX rand_stream n))
      as (Hx & _).
    rewrite <- after_S in Hx. fold s' in Hx. unfold sample. rewrite Hx.
    pose proof (scaled_within _ (sum_sources_within _ Hs)) as Hw.
    exact (proj1 (within_leb _ _ _ _ Prim2SF_peak Hw)).
Qed.

(** The eighth call, with the example C library. *)
Lemma sample_magnitude_bounded_witness :
  let s' := after example_RAND_MAX example_rand_stream 8 in
  Forall (fun v => (abs v <=? 1)%float = true) (noise_sources s') /\
  (abs (sum_sources (noise_sources s')) <=? 10)%float = true /\
  (abs (sample example_RAND_MAX example_rand_stream 7)
     <=? 10 * TARGET_RMS / RAW_RMS)%float = true.
Proof.
  apply (sample_magnitude_bounded example_RAND_MAX example_rand_stream 7).
  - exact example_RAND_MAX_range.
  - exact example_rand_stream_range.
Defined.

(** The bound of C6 is attained: a C library whose [rand()] always returns
    [RAND_MAX] makes every source 1.0 and every sample
    [10 * TARGET_RMS / RAW_RMS]. *)
Lemma peak_attained :
  sample example_RAND_MAX (fun _ _ => example_RAND_MAX) 0
  = (10 * TARGET_RMS / RAW_RMS)%float.
Proof. vm_compute. reflexivity. Qed.

(** C7: every call returns [sum * (TARGET_RMS / RAW_RMS)], where [sum] adds
    the ten sources, as they are after the update, to 0.0 from index 0 up,
    [TARGET_RMS] is 0.25 and [RAW_RMS] is 1.757; and the call leaves the
    counter one higher ([unsigned long] arithmetic: the successor of
    2^64 - 1 is 0). *)
Theorem sample_is_scaled_sum RAND_MAX rand_stream n :
  let s := after RAND_MAX rand_stream n in
  let s' := after RAND_MAX rand_stream (S n) in
  sample RAND_MAX rand_stream n
  = (fold_left PrimFloat.add (noise_sources s') 0 * (TARGET_RMS / RAW_RMS))%float /\
  length (noise_sources s') = 10%nat /\
  TARGET_RMS = 0.25%float /\ RAW_RMS = 1.757%float /\
  sample_counter s' = (sample_counter s + 1) mod 2 ^ 64 /\
  (sample_counter s < 2 ^ 64 - 1 -> sample_counter s' = sample_counter s + 1).
Proof.
  intros s s'.
  destruct (dpi_flicker_noise_spec RAND_MAX rand_stream _
              (wf_after RAND_MAX rand_stream n))
    as (Hx & Hc & _ & _ & Hl & _).
  pose proof (after_S RAND_MAX rand_stream n) as HS. fold s s' in HS.
  fold s in Hx, Hc, Hl. rewrite <- HS in Hx, Hc, Hl.
  destruct (sample_counter_after RAND_MAX rand_stream n) as [Hn Hini].
  fold s in Hn, Hini.
  rewrite ensure_initialized_counter in Hc;
    [|apply wf_after|intros H; rewrite Hn, (Hini H); reflexivity].
  destruct (wf_after RAND_MAX rand_stream n) as (_ & Hrange & _).
  fold s in Hrange.
  split; [|split; [exact Hl|split; [reflexivity|split; [reflexivity|split]]]].
  - unfold sample. fold s. rewrite Hx. unfold sum_sources.
    now rewrite firstn_all2 by (rewrite Hl; reflexivity).
  - exact Hc.
  - intros Hlt. rewrite Hc. unfold ulong, ULONG_BITS. apply Z.mod_small. lia.
Qed.

(** C8: two generators that have not been initialized yet return the same
    samples, call after call, whatever their sources, counter and [rand()]
    position were before: the loader seeds with the fixed [SEED] and
    overwrites all of it. *)
Theorem fresh_instances_agree RAND_MAX rand_stream s1 s2 n :
  initialized s1 = false -> initialized s2 = false ->
  length (noise_sources s1) = N_SOURCES ->
  length (noise_sources s2) = N_SOURCES ->
  fst (run RAND_MAX rand_stream n s1) = fst (run RAND_MAX rand_stream n s2).
Proof.
  intros Hi1 Hi2 Hl1 Hl2. destruct n as [|n]; [reflexivity|].
  cbn [run]. unfold dpi_flicker_noise, ensure_initialized.
  rewrite Hi1, Hi2. cbn [negb].
  now rewrite !init_flicker_noise_spec by assumption.
Qed.

(** The program start against a state with other sources, counter and
    [rand()] position. *)
Lemma fresh_instances_agree_witness :
  fst (run example_RAND_MAX example_rand_stream 6 initial_state)
  = fst (run example_RAND_MAX example_rand_stream 6
           {| noise_sources := repeat 1%float N_SOURCES;
              sample_counter := 7;
              initialized := false;
              rng := Rng 5 3 |}).
Proof.
  apply (fresh_instances_agree example_RAND_MAX example_rand_stream);
    reflexivity.
Defined.

Section Agreement.

Variable RAND_MAX : Z.
Variables rs1 rs2 : Z -> nat -> Z.
Hypothesis agree : forall k, (N_SOURCES <= k)%nat -> rs1 SEED k = rs2 SEED k.

Lemma update_loop_agree counter fuel : forall i srcs g,
  rng_seed g = SEED -> (N_SOURCES <= rng_calls g)%nat ->
  update_loop RAND_MAX rs1 fuel i counter srcs g
  = update_loop RAND_MAX rs2 fuel i counter srcs g.
Proof.
  induction fuel as [|fuel IH]; intros i srcs g Hs Hc; [reflexivity|].
  cbn [update_loop]. destruct (due counter i); [|now apply IH].
  unfold rand. rewrite Hs, (agree _ Hc). apply IH; cbn; [reflexivity|lia].
Qed.

Lemma dpi_flicker_noise_agree s :
  wf s -> initialized s = true ->
  dpi_flicker_noise RAND_MAX rs1 s = dpi_flicker_noise RAND_MAX rs2 s.
Proof.
  intros (_ & _ & Hg) Hi. destruct (Hg Hi) as [Hs Hc].
  unfold dpi_flicker_noise, ensure_initialized. rewrite Hi. cbn [negb].
  now rewrite update_loop_agree.
Qed.

Lemma run_agree n : forall s,
  wf s -> initialized s = true ->
  run RAND_MAX rs1 n s = run RAND_MAX rs2 n s.
Proof.
  induction n as [|n IH]; intros s Hwf Hi; [reflexivity|].
  cbn [run]. rewrite <- dpi_flicker_noise_agree by assumption.
  pose proof (wf_step RAND_MAX rs1 s Hwf) as Hwf'.
  destruct (dpi_flicker_noise_spec RAND_MAX rs1 s Hwf) as (_ & _ & Hi' & _).
  destruct (dpi_flicker_noise RAND_MAX rs1 s) as [x s1]. cbn [snd] in *.
  now rewrite IH.
Qed.

Lemma first_call_agree :
  dpi_flicker_noise RAND_MAX rs1 initial_state
  = dpi_flicker_noise RAND_MAX rs2 initial_state.
Proof.
  rewrite !first_call. cbv zeta.
  rewrite (map_ext_in _ (fun j => uniform RAND_MAX (rs2 SEED (N_SOURCES + j)%nat))).
  - reflexivity.
  - intros j _. rewrite agree by lia. reflexivity.
Qed.

End Agreement.

(** C10: the first call overwrites all ten sources before it sums them, with
    the draws number 10 to 19 (from 0) of the sequence, so the loader's
    draws number 0 to 9 are never read: two C libraries whose [rand()]
    sequences for [SEED] agree from draw number 10 on give the same
    samples. *)
Theorem loader_draws_never_reach_output RAND_MAX rs1 rs2 (n : nat) :
  (forall k, (N_SOURCES <= k)%nat -> rs1 SEED k = rs2 SEED k) ->
  noise_sources (after RAND_MAX rs1 1)
  = map (fun i => uniform RAND_MAX (rs1 SEED (N_SOURCES + i)%nat)) (seq 0 N_SOURCES) /\
  sample RAND_MAX rs1 0
  = (fold_left PrimFloat.add
       (map (fun i => uniform RAND_MAX (rs1 SEED (N_SOURCES + i)%nat))
          (seq 0 N_SOURCES)) 0 * (TARGET_RMS / RAW_RMS))%float /\
  fst (run RAND_MAX rs1 n initial_state) = fst (run RAND_MAX rs2 n initial_state).
Proof.
  intros Hagree. split; [reflexivity|]. split; [reflexivity|].
  destruct n as [|n]; [reflexivity|]. cbn [run].
  rewrite <- (first_call_agree RAND_MAX rs1 rs2 Hagree).
  pose proof (wf_step RAND_MAX rs1 initial_state (wf_initial)) as Hwf.
  destruct (dpi_flicker_noise_spec RAND_MAX rs1 initial_state wf_initial)
    as (_ & _ & Hi & _).
  destruct (dpi_flicker_noise RAND_MAX rs1 initial_state) as [x s1].
  cbn [snd] in *.
  now rewrite (run_agree RAND_MAX rs1 rs2 Hagree n s1 Hwf Hi).
Qed.

(** The example C library against the one whose first ten draws are 0. *)
Lemma loader_draws_never_reach_output_witness :
  noise_sources (after example_RAND_MAX example_rand_stream 1)
  = map (fun i => uniform example_RAND_MAX
                    (example_rand_stream SEED (N_SOURCES + i)%nat))
      (seq 0 N_SOURCES) /\
  sample example_RAND_MAX example_rand_stream 0
  = (fold_left PrimFloat.add
       (map (fun i => uniform example_RAND_MAX
                        (example_rand_stream SEED (N_SOURCES + i)%nat))
          (seq 0 N_SOURCES)) 0 * (TARGET_RMS / RAW_RMS))%float /\
  fst (run example_RAND_MAX example_rand_stream 5 initial_state)
  = fst (run example_RAND_MAX example_rand_stream' 5 initial_state).
Proof.
  apply (loader_draws_never_reach_output example_RAND_MAX
           example_rand_stream example_rand_stream' 5).
  intros k Hk. unfold example_rand_stream'.
  apply Nat.ltb_ge in Hk. now rewrite Hk.
Defined.

End StreamingFacts.

(** * Batch playback: the load report, the wrapper and what a run keeps *)

Module BatchMore.
Import Batch BatchFacts.
Local Open Scope Z_scope.

(** The cursor a call leaves is one past the slot it read. *)
Lemma call_leaves_cursor f s d s' :
  inv s -> dpi_flicker_noise_batch f s = Some (d, s') ->
  initialized s' = true /\
  1 <= current_index s' <= Z.max 1 (num_samples_loaded s') /\
  0 <= num_samples_loaded s' <= MAX_SAMPLES /\
  length (preloaded_noise s') = BUFFER_BYTES.
Proof.
  intros Hs Hcall.
  assert (Hgen : forall t, inv t -> initialized t = true ->
            dpi_flicker_noise_batch f t = Some (d, s') ->
            initialized s' = true /\
            1 <= current_index s' <= Z.max 1 (num_samples_loaded s') /\
            0 <= num_samples_loaded s' <= MAX_SAMPLES /\
            length (preloaded_noise s') = BUFFER_BYTES).
  { intros t (Hb & Hn & Hc & _) Hi Ht.
    rewrite call_initialized in Ht by (assumption || lia).
    injection Ht as _ <-.
    pose proof (wrapped_range t (proj1 Hc) Hn) as (Hw & Hw1 & Hw2).
    cbn [set_index preloaded_noise num_samples_loaded current_index initialized].
    split; [exact Hi|]. split; [|split; assumption].
    destruct (Z.eq_dec (num_samples_loaded t) 0) as [E|E]; [rewrite (Hw2 E)|]; lia. }
  destruct (initialized s) eqn:Hi.
  - exact (Hgen s Hs Hi Hcall).
  - rewrite (call_uninitialized f f s Hi) in Hcall.
    destruct Hs as (_ & _ & _ & Hstart). rewrite (Hstart Hi) in Hcall.
    destruct (init_inv f initial_state initial_buffer_length eq_refl)
      as (Hinv & Hini & _).
    exact (Hgen _ Hinv Hini Hcall).
Qed.

(** X1 (invariant): a reachable state is the program start, or it is loaded,
    its buffer has the size of the array, its sample count is between 0 and
    [MAX_SAMPLES], and its cursor is between 1 and the sample count (1 when
    no sample is loaded): the [int] cursor never runs away. *)
Theorem reachable_cursor_bounded s :
  reachable s ->
  s = initial_state \/
  (initialized s = true /\
   1 <= current_index s <= Z.max 1 (num_samples_loaded s) /\
   0 <= num_samples_loaded s <= MAX_SAMPLES /\
   length (preloaded_noise s) = BUFFER_BYTES).
Proof.
  intros Hr. pose proof Hr as Hr0.
  destruct Hr as [|f s d s' Hs Hcall|f s d s' Hs Hcall]; [now left|right|right].
  - exact (call_leaves_cursor f s d s' (reachable_inv s Hs) Hcall).
  - destruct (wrapper_call f s d s' Hcall) as (s1 & Hb & E1 & E2 & E3 & E4).
    rewrite E1, E2, E3, E4.
    exact (call_leaves_cursor f s d s1 (reachable_inv s Hs) Hb).
Qed.

(** After the first call, with the resource missing. *)
Lemma reachable_cursor_bounded_witness :
  let s1 := init_flicker_noise_batch None initial_state in
  let s := set_index s1 (wrapped s1 + 1) in
  s = initial_state \/
  (initialized s = true /\
   1 <= current_index s <= Z.max 1 (num_samples_loaded s) /\
   0 <= num_samples_loaded s <= MAX_SAMPLES /\
   length (preloaded_noise s) = BUFFER_BYTES).
Proof.
  apply reachable_cursor_bounded.
  apply (reachable_call None initial_state
           (slot (preloaded_noise (init_flicker_noise_batch None initial_state))
              (wrapped (init_flicker_noise_batch None initial_state)))).
  - exact reachable_start.
  - rewrite (call_uninitialized None None) by reflexivity.
    apply call_initialized; [reflexivity|cbn; lia|cbn; unfold MAX_SAMPLES; lia].
Defined.

(** X2 (a run keeps what the load left): a run from the program start never
    fails, whatever the file system holds during each call, and its final
    state is the state the first call's load left with only the cursor
    moved: buffer, sample count and [stderr] stay as the load left them. *)
Theorem run_only_moves_cursor f env :
  exists ds i,
    run (f :: env) initial_state
    = Some (ds, set_index (init_flicker_noise_batch f initial_state) i) /\
    length ds = S (length env) /\ 0 <= i.
Proof.
  rewrite (run_first _ f) by reflexivity.
  destruct (init_inv f initial_state initial_buffer_length eq_refl)
    as ((_ & Hn & Hc & _) & Hi & _).
  destruct (run_initialized (f :: env) (init_flicker_noise_batch f initial_state))
    as (i & Hrun & Hi0); [assumption|lia|assumption|].
  eexists _, i. split; [exact Hrun|]. split; [|exact Hi0].
  now rewrite length_map, length_seq.
Qed.

Lemma loaded_count_prefix file :
  loaded_count (firstn (sizeof_double * loaded_count file) file)
  = loaded_count file.
Proof.
  pose proof (loaded_count_bytes file) as Hb.
  pose proof (loaded_count_le file) as Hl.
  unfold loaded_count at 1. rewrite length_firstn, (Nat.min_l _ (length file)) by lia.
  unfold sizeof_double, MAX_SAMPLES in *. change (Z.to_nat 4096) with 4096%nat.
  rewrite Nat.min_l by lia. rewrite Nat.mul_comm. now apply Nat.div_mul.
Qed.

Lemma chunk_prefix file n j :
  (j < n)%nat ->
  chunk (firstn (sizeof_double * n) file) j = chunk file j.
Proof.
  intros Hj. unfold chunk, sizeof_double.
  rewrite skipn_firstn_comm, firstn_firstn. f_equal. lia.
Qed.

(** X3 (what the samples depend on): when at least one sample is loaded, the
    samples are those of the resource cut down to its complete samples
    within the capacity: neither the bytes of a trailing incomplete sample
    nor anything after the first 4096 samples reaches a caller. *)
Theorem sample_ignores_tail file k :
  (0 < loaded_count file)%nat ->
  sample (Some file) k
  = sample (Some (firstn (sizeof_double * loaded_count file) file)) k.
Proof.
  intros Hpos.
  rewrite (sample_file file k Hpos).
  rewrite sample_file by (rewrite loaded_count_prefix; exact Hpos).
  rewrite loaded_count_prefix. f_equal. symmetry. apply chunk_prefix.
  apply Nat.mod_upper_bound. lia.
Qed.

(** Two samples followed by three stray bytes. *)
Lemma sample_ignores_tail_witness :
  sample (Some (repeat x07 19)) 5
  = sample (Some (firstn (sizeof_double * loaded_count (repeat x07 19))
                    (repeat x07 19))) 5.
Proof.
  apply (sample_ignores_tail (repeat x07 19) 5). vm_compute. lia.
Defined.

(** X4 (the load report): after a short read the loader prints the warning
    block of eight lines, whose fifth names the number of complete samples
    in the file and the 4096 expected; after a full read the report names
    4096 samples and 32.0 KB and previews ten values, which are the first
    ten 8-byte groups of the file, the samples the first ten calls
    return. *)
Theorem load_report file :
  let s := init_flicker_noise_batch (Some file) initial_state in
  ((loaded_count file < 4096)%nat ->
   stderr s
   = [ Fprintf "\n" [];
       Fprintf "========================================\n" [];
       Fprintf "WARNING: Partial binary file read\n" [];
       Fprintf "========================================\n" [];
       Fprintf "Loaded %d samples (expected %d)\n"
         [AInt (Z.of_nat (loaded_count file)); AInt 4096];
       Fprintf "Binary file may be truncated or corrupted.\n" [];
       Fprintf "Re-run: uv run python3 scripts/generate_flicker_noise_batch.py\n"
         [];
       Fprintf "========================================\n" [] ]) /\
  ((4096 * sizeof_double <= length file)%nat ->
   stderr s
   = Fprintf "[DPI-C INFO] Loaded %d noise samples from %s (%.1f KB)\n"
       [AInt 4096; AStr NOISE_DATA_FILE; AFloat 32%float]
     :: Fprintf "[DPI-C DEBUG] First 10 samples from binary:\n" []
     :: map (fun i : nat =>
               Fprintf "  [%3d] %11.6f\n"
                 [AInt (Z.of_nat i); ADouble (chunk file i)])
          (seq 0 10) /\
   forall i, (i < 10)%nat -> sample (Some file) i = Some (chunk file i)).
Proof.
  cbn zeta. unfold init_flicker_noise_batch.
  pose proof (fread_count (preloaded_noise initial_state) file) as Hn.
  pose proof (fun j => slot_fread (preloaded_noise initial_state) file j) as Hslot.
  destruct (fread _ _ _ file) as [buf n]; cbn [fst snd] in *.
  cbn [stderr initial_state app]. subst n. split.
  - intros Hlt. unfold MAX_SAMPLES.
    destruct (Z.ltb_spec (Z.of_nat (loaded_count file)) 4096); [reflexivity|lia].
  - intros Hlen.
    assert (Hc : loaded_count file = 4096%nat).
    { unfold loaded_count, sizeof_double, MAX_SAMPLES in *.
      change (Z.to_nat 4096) with 4096%nat.
      rewrite Nat.min_r by lia. rewrite Nat.mul_comm. now apply Nat.div_mul. }
    split.
    + rewrite Hc. unfold MAX_SAMPLES.
      change (Z.of_nat 4096 <? 4096) with false. cbv iota.
      unfold loaded_diagnostic, preview.
      change (Nat.min 10 (Z.to_nat (Z.of_nat 4096))) with 10%nat.
      f_equal. f_equal. apply map_ext_in. intros i Hi. apply in_seq in Hi.
      do 3 f_equal. unfold slot in Hslot.
      rewrite <- (Hslot i) by lia. now rewrite Nat2Z.id.
    + intros i Hi. rewrite sample_file by lia. rewrite Hc.
      now rewrite Nat.mod_small by lia.
Qed.

(** A resource of exactly three samples. *)
Lemma load_report_witness :
  stderr (init_flicker_noise_batch (Some (repeat x07 24)) initial_state)
  = [ Fprintf "\n" [];
      Fprintf "========================================\n" [];
      Fprintf "WARNING: Partial binary file read\n" [];
      Fprintf "========================================\n" [];
      Fprintf "Loaded %d samples (expected %d)\n" [AInt 3; AInt 4096];
      Fprintf "Binary file may be truncated or corrupted.\n" [];
      Fprintf "Re-run: uv run python3 scripts/generate_flicker_noise_batch.py\n"
        [];
      Fprintf "========================================\n" [] ].
Proof.
  apply (proj1 (load_report (repeat x07 24))). vm_compute. lia.
Defined.

(** One call of [dpi_flicker_noise_batch] on two states that play the same
    samples. *)
Lemma call_same_playback f s t :
  same_playback s t ->
  match dpi_flicker_noise_batch f s, dpi_flicker_noise_batch f t with
  | Some (d, s'), Some (e, t') => d = e /\ same_playback s' t'
  | None, None => True
  | _, _ => False
  end.
Proof.
  destruct s as [b1 c1 i1 n1 k1 e1], t as [b2 c2 i2 n2 k2 e2].
  unfold same_playback; cbn [preloaded_noise current_index initialized
                             num_samples_loaded].
  intros (<- & <- & <- & <-).
  unfold dpi_flicker_noise_batch, at_read, ensure_initialized,
    init_flicker_noise_batch, wrap_index, read_and_advance;
    cbn [initialized preloaded_noise current_index num_samples_loaded].
  destruct i1; cbn [negb]; [|destruct f as [file|]; [destruct (fread _ _ _ file)|]];
    cbn [initialized preloaded_noise current_index num_samples_loaded];
    match goal with |- context [?a >=? ?b] => destruct (a >=? b) end;
    cbn [initialized preloaded_noise current_index num_samples_loaded];
    match goal with |- context [read_double ?a ?b] => destruct (read_double a b) end;
    cbn; auto.
Qed.

Lemma wrapper_same_playback f s d s' :
  dpi_flicker_noise f s = Some (d, s') ->
  exists s1, dpi_flicker_noise_batch f s = Some (d, s1) /\
             same_playback s' s1 /\ call_count s' = call_count s1 + 1.
Proof.
  unfold dpi_flicker_noise.
  destruct (dpi_flicker_noise_batch f s) as [[d1 s1]|]; [|discriminate].
  intros H. injection H as <- <-. exists s1. split; [reflexivity|].
  unfold same_playback. destruct (call_count s1 <? 30); cbn; auto.
Qed.

Lemma batch_keeps_call_count f s d s' :
  dpi_flicker_noise_batch f s = Some (d, s') -> call_count s' = call_count s.
Proof.
  unfold dpi_flicker_noise_batch, at_read, read_and_advance.
  destruct (read_double _ _); [|discriminate].
  intros H. injection H as _ <-. cbn [call_count].
  unfold wrap_index, ensure_initialized, init_flicker_noise_batch.
  destruct (initialized s); cbn [negb];
    [|destruct f as [file|]; [destruct (fread _ _ _ file)|]];
    match goal with |- context [?a >=? ?b] => destruct (a >=? b) end;
    reflexivity.
Qed.

Lemma same_playback_sym s t : same_playback s t -> same_playback t s.
Proof. unfold same_playback. intuition congruence. Qed.

Lemma same_playback_trans s t u :
  same_playback s t -> same_playback t u -> same_playback s u.
Proof. unfold same_playback. intuition congruence. Qed.

Lemma run_wrapper_simulates env : forall s t,
  same_playback s t ->
  match run_wrapper env s, run env t with
  | Some (ds, s'), Some (es, t') =>
      ds = es /\ same_playback s' t' /\
      call_count s' = call_count s + Z.of_nat (length env)
  | None, None => True
  | _, _ => False
  end.
Proof.
  induction env as [|f env IH]; intros s t Hst.
  - cbn [run_wrapper run length]. split; [reflexivity|]. split; [exact Hst|].
    change (Z.of_nat 0) with 0. lia.
  - cbn [run_wrapper run length].
    pose proof (call_same_playback f s t Hst) as Hcall.
    destruct (dpi_flicker_noise f s) as [[d s1]|] eqn:Ew.
    + destruct (wrapper_same_playback f s d s1 Ew) as (s2 & Eb & Hp & Hc).
      rewrite Eb in Hcall.
      destruct (dpi_flicker_noise_batch f t) as [[e t1]|]; [|contradiction].
      destruct Hcall as [<- Hp2].
      specialize (IH s1 t1 (same_playback_trans _ _ _ Hp Hp2)).
      destruct (run_wrapper env s1) as [[ds s']|], (run env t1) as [[es t']|];
        try contradiction; auto.
      destruct IH as (-> & Hp' & Hc').
      split; [reflexivity|]. split; [exact Hp'|].
      rewrite Hc', Hc, (batch_keeps_call_count f s d s2 Eb). lia.
    + unfold dpi_flicker_noise in Ew.
      destruct (dpi_flicker_noise_batch f s) as [[d1 s1]|]; [discriminate|].
      destruct (dpi_flicker_noise_batch f t) as [[e t1]|]; [contradiction|exact I].
Qed.

Lemma run_total env : exists es t, run env initial_state = Some (es, t).
Proof.
  destruct env as [|f env]; [exists [], initial_state; reflexivity|].
  rewrite (run_first _ f) by reflexivity.
  destruct (init_inv f initial_state initial_buffer_length eq_refl)
    as ((_ & Hn & Hc & _) & Hi & _).
  destruct (run_initialized (f :: env) (init_flicker_noise_batch f initial_state))
    as (i & Hrun & Hi0); [assumption|lia|assumption|].
  eexists _, _. exact Hrun.
Qed.

(** X5 (the wrapper is transparent): from the program start, a run through
    the wrapper [dpi_flicker_noise] returns the samples of the same run
    through [dpi_flicker_noise_batch], never fails, ends with the same
    buffer, cursor and sample count, and has counted its calls.  The run is
    short enough for the [int] call counter. *)
Theorem wrapper_transparent env :
  Z.of_nat (length env) <= INT_MAX ->
  exists ds s t,
    run_wrapper env initial_state = Some (ds, s) /\
    run env initial_state = Some (ds, t) /\
    same_playback s t /\
    call_count s = Z.of_nat (length env).
Proof.
  intros _.
  pose proof (run_wrapper_simulates env initial_state initial_state
                (conj eq_refl (conj eq_refl (conj eq_refl eq_refl)))) as H.
  destruct (run_total env) as (es & t & Hr). rewrite Hr in H.
  destruct (run_wrapper env initial_state) as [[ds s]|]; [|contradiction].
  destruct H as (-> & Hp & Hc). exists es, s, t.
  split; [reflexivity|]. split; [exact Hr|]. split; [exact Hp|].
  rewrite Hc. reflexivity.
Qed.

(** Three calls; the file is there for the first only. *)
Lemma wrapper_transparent_witness :
  exists ds s t,
    run_wrapper [Some [x01; x02; x03]; None; None] initial_state
    = Some (ds, s) /\
    run [Some [x01; x02; x03]; None; None] initial_state = Some (ds, t) /\
    same_playback s t /\
    call_count s = 3.
Proof.
  apply (wrapper_transparent [Some [x01; x02; x03]; None; None]).
  unfold INT_MAX. cbn [length]. lia.
Defined.


(** One wrapper call on a loaded generator. *)
Lemma wrapper_call_initialized f s :
  initialized s = true ->
  0 <= current_index s -> 0 <= num_samples_loaded s <= MAX_SAMPLES ->
  exists s',
    dpi_flicker_noise f s = Some (slot (preloaded_noise s) (wrapped s), s') /\
    preloaded_noise s' = preloaded_noise s /\
    num_samples_loaded s' = num_samples_loaded s /\
    initialized s' = true /\
    current_index s' = wrapped s + 1 /\
    call_count s' = call_count s + 1 /\
    stderr s' = stderr s ++
      (if call_count s <? 30
       then [call_line (call_count s) (wrapped s)
               (slot (preloaded_noise s) (wrapped s))]
       else []).
Proof.
  intros Hi Hc Hn. unfold dpi_flicker_noise.
  rewrite (call_initialized f s Hi Hc Hn).
  eexists. split; [reflexivity|].
  cbn [set_index call_count current_index].
  destruct (call_count s <? 30);
    cbn [log set_index preloaded_noise num_samples_loaded initialized
         current_index call_count stderr].
  - rewrite Z.add_simpl_r. unfold call_line. auto 7.
  - rewrite app_nil_r. auto 7.
Qed.

Lemma filter_map_S (p : nat -> bool) l :
  filter p (map S l) = map S (filter (fun j => p (S j)) l).
Proof.
  induction l as [|x l IH]; [reflexivity|].
  cbn [map filter]. rewrite IH. now destruct (p (S x)).
Qed.

(** A row of wrapper calls on a loaded generator. *)
Lemma run_wrapper_initialized env : forall s,
  initialized s = true ->
  0 <= current_index s -> 0 <= num_samples_loaded s <= MAX_SAMPLES ->
  exists s',
    run_wrapper env s =
    Some (map (fun j => slot (preloaded_noise s)
                          (cursor (num_samples_loaded s) (wrapped s) j))
              (seq 0 (length env)), s') /\
    stderr s' = stderr s ++
      map (fun j => call_line (call_count s + Z.of_nat j)
                      (cursor (num_samples_loaded s) (wrapped s) j)
                      (slot (preloaded_noise s)
                         (cursor (num_samples_loaded s) (wrapped s) j)))
          (filter (fun j => call_count s + Z.of_nat j <? 30)
             (seq 0 (length env))).
Proof.
  induction env as [|f env IH]; intros s Hi Hc Hn.
  - exists s. cbn. now rewrite app_nil_r.
  - destruct (wrapper_call_initialized f s Hi Hc Hn)
      as (s1 & E1 & Hb1 & Hn1 & Hi1 & Hc1 & Hk1 & He1).
    pose proof (wrapped_range s Hc Hn) as (Hw & Hw1 & Hw0).
    destruct (IH s1 Hi1) as (s' & E' & He'); [lia|lia|].
    exists s'. cbn [run_wrapper length]. rewrite E1, E'.
    assert (Hcur : forall j,
              cursor (num_samples_loaded s1) (wrapped s1) j
              = cursor (num_samples_loaded s) (wrapped s) (S j)).
    { intros j. rewrite Hn1, <- (cursor_next s j Hc (proj1 Hn)).
      f_equal. unfold wrapped. rewrite Hn1, Hc1. reflexivity. }
    assert (H0 : cursor (num_samples_loaded s) (wrapped s) 0 = wrapped s).
    { apply cursor_0; lia. }
    split.
    + f_equal. f_equal. cbn [seq map]. rewrite H0. f_equal.
      rewrite <- seq_shift, map_map, Hb1.
      apply map_ext. intros j. now rewrite Hcur.
    + rewrite He', He1, Hb1, Hk1, <- app_assoc. f_equal.
      cbn [seq filter]. change (Z.of_nat 0) with 0. rewrite Z.add_0_r.
      rewrite <- seq_shift, filter_map_S.
      assert (Hf : filter (fun j => call_count s + 1 + Z.of_nat j <? 30)
                     (seq 0 (length env))
                   = filter (fun j => call_count s + Z.of_nat (S j) <? 30)
                       (seq 0 (length env))).
      { apply filter_ext. intros j. f_equal. lia. }
      rewrite Hf.
      destruct (call_count s <? 30); cbn [app map]; rewrite map_map;
        [rewrite H0, Z.add_0_r; f_equal|];
        apply map_ext; intros j; rewrite Hcur; f_equal; lia.
Qed.

Lemma filter_below_seq k n :
  filter (fun j => Z.of_nat j <? Z.of_nat k) (seq 0 n) = seq 0 (Nat.min k n).
Proof.
  induction n as [|n IH]; [now rewrite Nat.min_0_r|].
  rewrite seq_S, filter_app, IH. cbn [filter Nat.add].
  destruct (Z.ltb_spec (Z.of_nat n) (Z.of_nat k)).
  - rewrite (Nat.min_r k n), (Nat.min_r k (S n)) by lia.
    now rewrite seq_S.
  - rewrite (Nat.min_l k n), (Nat.min_l k (S n)) by lia.
    now rewrite app_nil_r.
Qed.

(** X6 (what the wrapper logs): a run of wrapper calls from the program start
    adds to what the load printed one line for each of the first 30 calls and
    nothing after: line [j] carries the call number [j], the slot that call
    read and the sample it returned.  The run is short enough for the [int]
    call counter. *)
Theorem wrapper_log f env :
  Z.of_nat (S (length env)) <= INT_MAX ->
  let s0 := init_flicker_noise_batch f initial_state in
  let n := num_samples_loaded s0 in
  let read j := slot (preloaded_noise s0) (cursor n 0 j) in
  exists s,
    run_wrapper (f :: env) initial_state
    = Some (map read (seq 0 (S (length env))), s) /\
    stderr s = stderr s0 ++
      map (fun j => call_line (Z.of_nat j) (cursor n 0 j) (read j))
          (seq 0 (Nat.min 30 (S (length env)))).
Proof.
  intros _ s0 n read.
  destruct (init_inv f initial_state initial_buffer_length eq_refl)
    as ((_ & Hn & Hc & _) & Hi & Hc0).
  fold s0 in Hn, Hc, Hi, Hc0.
  destruct (run_wrapper_initialized (f :: env) s0 Hi) as (s & E & He);
    [lia|exact Hn|].
  assert (Hw : wrapped s0 = 0).
  { unfold wrapped. rewrite Hc0. now destruct (0 >=? num_samples_loaded s0). }
  assert (Hk : call_count s0 = 0).
  { unfold s0, init_flicker_noise_batch. destruct f as [file|];
      [destruct (fread _ _ _ file)|]; reflexivity. }
  rewrite Hw in E, He. rewrite Hk in He.
  exists s. split.
  - etransitivity; [|exact E].
    cbn [run_wrapper]. unfold dpi_flicker_noise.
    now rewrite (call_uninitialized f f initial_state eq_refl).
  - rewrite He. f_equal.
    rewrite (filter_ext _ (fun j => Z.of_nat j <? Z.of_nat 30))
      by (intros j; reflexivity).
    rewrite filter_below_seq. cbn [length].
    apply map_ext. intros j. reflexivity.
Qed.

(** Two calls on a file of three bytes: both read slot 0. *)
Lemma wrapper_log_witness :
  let s0 := init_flicker_noise_batch (Some [x01; x02; x03]) initial_state in
  let n := num_samples_loaded s0 in
  let read j := slot (preloaded_noise s0) (cursor n 0 j) in
  exists s,
    run_wrapper [Some [x01; x02; x03]; None] initial_state
    = Some (map read (seq 0 2), s) /\
    stderr s = stderr s0 ++
      map (fun j => call_line (Z.of_nat j) (cursor n 0 j) (read j)) (seq 0 2).
Proof.
  apply (wrapper_log (Some [x01; x02; x03]) [None]).
  unfold INT_MAX. cbn [length]. lia.
Defined.


End BatchMore.

(** * The streaming generator by call number *)

Module StreamingMore.
Import Streaming Binary64 FloatBounds StreamingFacts.
Local Open Scope Z_scope.

Lemma refreshes_succ n i :
  0 <= n ->
  refreshes (n + 1) i
  = refreshes n i + (if n mod 2 ^ Z.of_nat i =? 0 then 1 else 0).
Proof.
  intros Hn. unfold refreshes.
  set (d := 2 ^ Z.of_nat i).
  assert (Hd : 0 < d) by (apply Z.pow_pos_nonneg; lia).
  pose proof (Z.div_mod n d ltac:(lia)) as Hdm.
  pose proof (Z.mod_pos_bound n d Hd) as Hr.
  destruct (Z.eqb_spec (n mod d) 0) as [E|E].
  - rewrite <- (Z.div_unique (n + 1 + d - 1) d (n / d + 1) 0) by lia.
    rewrite <- (Z.div_unique (n + d - 1) d (n / d) (d - 1)) by lia.
    lia.
  - rewrite <- (Z.div_unique (n + 1 + d - 1) d (n / d + 1) (n mod d)) by lia.
    rewrite <- (Z.div_unique (n + d - 1) d (n / d + 1) (n mod d - 1)) by lia.
    lia.
Qed.

Lemma refreshes_nonneg n i : 0 <= n -> 0 <= refreshes n i.
Proof.
  intros Hn. unfold refreshes.
  assert (0 < 2 ^ Z.of_nat i) by (apply Z.pow_pos_nonneg; lia).
  apply Z.div_pos; lia.
Qed.

Lemma sum_refreshes_nonneg n l :
  0 <= n -> 0 <= fold_right Z.add 0 (map (refreshes n) l).
Proof.
  intros Hn. induction l as [|i l IH]; cbn [map fold_right]; [lia|].
  pose proof (refreshes_nonneg n i Hn). lia.
Qed.

Lemma sum_refreshes_succ n l :
  0 <= n ->
  fold_right Z.add 0 (map (refreshes (n + 1)) l)
  = fold_right Z.add 0 (map (refreshes n) l)
    + Z.of_nat (length (filter (fun i => n mod 2 ^ Z.of_nat i =? 0) l)).
Proof.
  intros Hn. induction l as [|i l IH]; [reflexivity|].
  cbn [map fold_right filter]. rewrite IH, refreshes_succ by assumption.
  destruct (n mod 2 ^ Z.of_nat i =? 0); cbn [length]; lia.
Qed.

Lemma filter_all {A} (p : A -> bool) l :
  (forall x, In x l -> p x = true) -> filter p l = l.
Proof.
  induction l as [|x l IH]; intros H; [reflexivity|].
  cbn [filter]. rewrite (H x (or_introl eq_refl)), IH; [reflexivity|].
  intros y Hy. apply H. now right.
Qed.

(** A multiple of [2^i] is a multiple of every smaller power of two. *)
Lemma mod_pow2_smaller n i j :
  (j <= i)%nat -> n mod 2 ^ Z.of_nat i = 0 -> n mod 2 ^ Z.of_nat j = 0.
Proof.
  intros Hj Hn.
  rewrite <- (Z.mod_mod_divide n (2 ^ Z.of_nat i) (2 ^ Z.of_nat j)), Hn.
  - apply Z.mod_0_l. apply Z.pow_nonzero; lia.
  - exists (2 ^ (Z.of_nat i - Z.of_nat j)).
    rewrite <- Z.pow_add_r by lia. f_equal. lia.
Qed.

Section Schedule.

Variable RAND_MAX : Z.
Variable rand_stream : Z -> nat -> Z.


(** The counter wraps at [2^64], a multiple of every [2^i] the loop tests. *)
Lemma due_after n i :
  (i < 64)%nat ->
  due (sample_counter (after RAND_MAX rand_stream n)) i
  = (Z.of_nat n mod 2 ^ Z.of_nat i =? 0).
Proof.
  intros Hi. destruct (sample_counter_after RAND_MAX rand_stream n) as [Hc _].
  rewrite Hc, due_mod;
    [|assumption|unfold ulong; apply Z.mod_pos_bound; reflexivity].
  unfold ulong, ULONG_BITS. f_equal.
  apply Z.mod_mod_divide.
  exists (2 ^ (64 - Z.of_nat i)). rewrite <- Z.pow_add_r by lia. f_equal. lia.
Qed.

Lemma due_count_after n k :
  (k <= 64)%nat ->
  due_count (sample_counter (after RAND_MAX rand_stream n)) 0 k
  = length (filter (fun i => Z.of_nat n mod 2 ^ Z.of_nat i =? 0) (seq 0 k)).
Proof.
  intros Hk. unfold due_count. f_equal. apply filter_ext_in.
  intros i Hi. apply in_seq in Hi. apply due_after. lia.
Qed.

Lemma counter_at_call n :
  sample_counter (ensure_initialized RAND_MAX rand_stream
                    (after RAND_MAX rand_stream n))
  = sample_counter (after RAND_MAX rand_stream n).
Proof.
  destruct (sample_counter_after RAND_MAX rand_stream n) as [Hc Hini].
  apply ensure_initialized_counter; [apply wf_after|].
  intros H. rewrite Hc, (Hini H). reflexivity.
Qed.

(** One call, by call number. *)
Lemma call_by_number n :
  rng (after RAND_MAX rand_stream (S n))
  = Rng SEED (used RAND_MAX rand_stream n
              + due_count (sample_counter (after RAND_MAX rand_stream n))
                  0 N_SOURCES) /\
  initialized (after RAND_MAX rand_stream (S n)) = true /\
  forall j d,
    nth j (noise_sources (after RAND_MAX rand_stream (S n))) d =
    if (j <? N_SOURCES)%nat
       && due (sample_counter (after RAND_MAX rand_stream n)) j
    then uniform RAND_MAX
           (rand_stream SEED
              (used RAND_MAX rand_stream n
               + due_count (sample_counter (after RAND_MAX rand_stream n))
                   0 j))
    else nth j (noise_sources (ensure_initialized RAND_MAX rand_stream
                                 (after RAND_MAX rand_stream n))) d.
Proof.
  destruct (dpi_flicker_noise_spec RAND_MAX rand_stream _
              (wf_after RAND_MAX rand_stream n))
    as (_ & _ & Hi & Hg & _ & Hn).
  rewrite <- (after_S RAND_MAX rand_stream n) in Hi, Hg, Hn.
  rewrite counter_at_call in Hg, Hn.
  split; [exact Hg|]. split; [exact Hi|exact Hn].
Qed.

Lemma used_succ n :
  used RAND_MAX rand_stream (S n)
  = (used RAND_MAX rand_stream n
     + due_count (sample_counter (after RAND_MAX rand_stream n))
         0 N_SOURCES)%nat.
Proof.
  destruct (call_by_number n) as (Hg & Hi & _).
  unfold Streaming.used at 1. unfold ensure_initialized. rewrite Hi. cbn [negb].
  now rewrite Hg.
Qed.

Lemma used_closed n :
  used RAND_MAX rand_stream n = draws_before (Z.of_nat n).
Proof.
  induction n as [|n IH]; [reflexivity|].
  rewrite used_succ, IH, due_count_after by (unfold N_SOURCES; lia).
  unfold draws_before. rewrite Nat2Z.inj_succ, <- Z.add_1_r.
  rewrite sum_refreshes_succ by lia.
  pose proof (sum_refreshes_nonneg (Z.of_nat n) (seq 0 N_SOURCES)
                ltac:(lia)).
  rewrite Z2Nat.inj_add, Nat2Z.id by lia. lia.
Qed.

Lemma source_kept n i d :
  Z.of_nat n mod 2 ^ Z.of_nat i <> 0 ->
  nth i (noise_sources (after RAND_MAX rand_stream (S n))) d
  = nth i (noise_sources (after RAND_MAX rand_stream n)) d.
Proof.
  intros Hmod. destruct (call_by_number n) as (_ & _ & Hn). rewrite Hn.
  assert (Hn0 : n <> 0%nat).
  { intros ->. apply Hmod. apply Z.mod_0_l. apply Z.pow_nonzero; lia. }
  assert (Hini : initialized (after RAND_MAX rand_stream n) = true).
  { destruct n as [|m]; [congruence|]. apply (call_by_number m). }
  unfold ensure_initialized. rewrite Hini. cbn [negb].
  destruct (Nat.ltb_spec i N_SOURCES) as [Hi|Hi]; [|reflexivity].
  rewrite due_after by (unfold N_SOURCES in Hi; lia).
  destruct (Z.eqb_spec (Z.of_nat n mod 2 ^ Z.of_nat i) 0); [contradiction|].
  reflexivity.
Qed.

Lemma source_drawn n i d :
  (i < N_SOURCES)%nat -> Z.of_nat n mod 2 ^ Z.of_nat i = 0 ->
  nth i (noise_sources (after RAND_MAX rand_stream (S n))) d
  = uniform RAND_MAX (rand_stream SEED (draws_before (Z.of_nat n) + i)).
Proof.
  intros Hi Hmod. destruct (call_by_number n) as (_ & _ & Hn). rewrite Hn.
  apply Nat.ltb_lt in Hi as Hi'. rewrite Hi'. apply Nat.ltb_lt in Hi'.
  rewrite due_after by (unfold N_SOURCES in Hi; lia).
  rewrite Hmod. cbn [andb Z.eqb].
  rewrite due_count_after by (unfold N_SOURCES in Hi; lia).
  rewrite filter_all, length_seq, used_closed; [reflexivity|].
  intros j Hj. apply in_seq in Hj. apply Z.eqb_eq.
  apply (mod_pow2_smaller _ i); [lia|assumption].
Qed.

End Schedule.

(** X7 (schedule by call number): source [i] is drawn anew in call number [n]
    (from 0) exactly when [n] is a multiple of [2^i], for every [n]: the
    wrap of the 64-bit counter does not disturb the schedule. *)
Theorem schedule_by_call_number RAND_MAX rand_stream n i :
  (i < N_SOURCES)%nat ->
  due (sample_counter (after RAND_MAX rand_stream n)) i
  = (Z.of_nat n mod 2 ^ Z.of_nat i =? 0).
Proof.
  intros Hi. apply due_after. unfold N_SOURCES in Hi. lia.
Qed.

(** Source 3 is due in call 8 and not in call 12. *)
Lemma schedule_by_call_number_witness :
  due (sample_counter (after example_RAND_MAX example_rand_stream 8)) 3 = true
  /\ due (sample_counter (after example_RAND_MAX example_rand_stream 12)) 3
     = false.
Proof.
  split.
  - exact (schedule_by_call_number example_RAND_MAX example_rand_stream 8 3
             ltac:(unfold N_SOURCES; lia)).
  - exact (schedule_by_call_number example_RAND_MAX example_rand_stream 12 3
             ltac:(unfold N_SOURCES; lia)).
Defined.

(** X8 (consumption of the random sequence): after [n + 1] calls the
    generator has seed [SEED] and has made [10 + sum over i < 10 of
    ceil((n + 1) / 2^i)] calls of [rand()] since [srand]: ten by the loader,
    and one per refresh of a source. *)
Theorem rand_calls_total RAND_MAX rand_stream n :
  rng (after RAND_MAX rand_stream (S n))
  = Rng SEED (draws_before (Z.of_nat (S n))).
Proof.
  destruct (call_by_number RAND_MAX rand_stream n) as (Hg & _ & _).
  rewrite Hg, <- used_succ, used_closed. reflexivity.
Qed.



(** A binary64 number divided by itself: the division is exact. *)
Lemma SFdiv_self m e :
  SFdiv prec emax (S754_finite false m e) (S754_finite false m e)
  = Prim2SF 1%float.
Proof.
  cbn [SFdiv xorb]. unfold SFdiv_core_binary.
  rewrite Z.sub_diag.
  replace (Zdigits2 (Z.pos m) + e - (Zdigits2 (Z.pos m) + e)) with 0 by lia.
  change (Z.min (fexp prec emax 0) 0) with (-53).
  change (0 - -53) with 53. cbv iota.
  assert (E : Z.div_eucl (Z.shiftl (Z.pos m) 53) (Z.pos m) = (2 ^ 53, 0)).
  { transitivity (Z.shiftl (Z.pos m) 53 / Z.pos m,
                  Z.shiftl (Z.pos m) 53 mod Z.pos m).
    - unfold Z.div, Z.modulo. now destruct (Z.div_eucl _ _).
    - rewrite Z.shiftl_mul_pow2, Z.mul_comm by lia.
      now rewrite Z.div_mul, Z.mod_mul by discriminate. }
  rewrite E. unfold new_location, new_location_even, new_location_odd.
  cbn [Z.eqb]. destruct (Z.even (Z.pos m)); reflexivity.
Qed.

Section Endpoints.

Variable RAND_MAX : Z.
Hypothesis RAND_MAX_range : 0 < RAND_MAX < 2 ^ 53.

Lemma uniform_0 : uniform RAND_MAX 0 = (-1)%float.
Proof.
  assert (E : (to_double 0 / to_double RAND_MAX)%float = 0%float).
  { apply Prim2SF_inj. rewrite FloatAxioms.div_spec. unfold SF64div.
    destruct (to_double_pos RAND_MAX RAND_MAX_range) as (m & e & EM & _).
    rewrite EM, to_double_0. reflexivity. }
  unfold uniform. rewrite E. reflexivity.
Qed.

Lemma uniform_RAND_MAX : uniform RAND_MAX RAND_MAX = 1%float.
Proof.
  assert (E : (to_double RAND_MAX / to_double RAND_MAX)%float = 1%float).
  { apply Prim2SF_inj. rewrite FloatAxioms.div_spec. unfold SF64div.
    destruct (to_double_pos RAND_MAX RAND_MAX_range) as (m & e & EM & _).
    rewrite EM. apply SFdiv_self. }
  unfold uniform. rewrite E. reflexivity.
Qed.

End Endpoints.

(** X10 (the ends of the range are reached): a [rand()] value of 0 gives the
    draw -1.0 and a [rand()] value of [RAND_MAX] gives the draw 1.0, both
    exactly: the draws cover the closed range [-1, 1]. *)
Theorem draw_endpoints RAND_MAX :
  0 < RAND_MAX < 2 ^ 53 ->
  uniform RAND_MAX 0 = (-1)%float /\ uniform RAND_MAX RAND_MAX = 1%float.
Proof.
  intros HM. split; [now apply uniform_0|now apply uniform_RAND_MAX].
Qed.

(** With [RAND_MAX] 32767. *)
Lemma draw_endpoints_witness :
  uniform example_RAND_MAX 0 = (-1)%float /\
  uniform example_RAND_MAX example_RAND_MAX = 1%float.
Proof.
  apply (draw_endpoints example_RAND_MAX). unfold example_RAND_MAX. lia.
Defined.

End StreamingMore.

(** * The simulation driver *)

Module TestbenchFacts.
Import Testbench.
Local Open Scope Z_scope.

Section Verilated.

Variable model : Type.
Variable eval : model -> model.
Variable gotFinish : model -> bool.
Variable VM_TRACE : bool.

(** The loop started with exactly the iterations left that the time limit
    allows. *)
Lemma loop_spec fuel : forall s : sim model,
  sim_time s + Z.of_nat fuel = max_sim_time ->
  exists T,
    (T <= fuel)%nat /\
    loop model eval gotFinish VM_TRACE fuel s
    = {| tb := Nat.iter T eval (tb s);
         sim_time := sim_time s + Z.of_nat T;
         dumped := if VM_TRACE
                   then dumped s
                        ++ map (fun k => sim_time s + Z.of_nat k) (seq 0 T)
                   else dumped s |} /\
    (forall t, (t < T)%nat -> gotFinish (Nat.iter t eval (tb s)) = false) /\
    (gotFinish (Nat.iter T eval (tb s)) = true
     \/ sim_time s + Z.of_nat T = max_sim_time).
Proof.
  induction fuel as [|fuel IH]; intros s Hs.
  - exists 0%nat. split; [lia|]. split; [|split; [intros t Ht; lia|right; exact Hs]].
    destruct s as [m t d]. cbn [loop tb sim_time dumped Nat.iter seq map].
    rewrite Z.add_0_r, app_nil_r. now destruct VM_TRACE.
  - cbn [loop]. destruct (gotFinish (tb s)) eqn:Hf; cbn [negb andb].
    + exists 0%nat. split; [lia|].
      split; [|split; [intros t Ht; lia|left; exact Hf]].
      destruct s as [m t d]. cbn [tb sim_time dumped Nat.iter seq map].
      rewrite Z.add_0_r, app_nil_r. now destruct VM_TRACE.
    + destruct (Z.ltb_spec (sim_time s) max_sim_time) as [Hlt|Hge]; [|lia].
      destruct (IH {| tb := eval (tb s);
                      sim_time := sim_time s + 1;
                      dumped := if VM_TRACE then dumped s ++ [sim_time s]
                                else dumped s |})
        as (T & HT & E & Hrun & Hend); [cbn [sim_time]; lia|].
      cbn [tb sim_time dumped] in E, Hrun, Hend.
      exists (S T). split; [lia|]. split; [|split].
      * rewrite E. rewrite <- Nat.iter_succ_r. f_equal; [lia|].
        destruct VM_TRACE; [|reflexivity].
        rewrite <- app_assoc. f_equal. cbn [seq map app].
        rewrite Z.add_0_r. f_equal.
        rewrite <- seq_shift, map_map. apply map_ext. intros k. lia.
      * intros [|t] Ht; [exact Hf|].
        rewrite Nat.iter_succ_r. apply Hrun. lia.
      * rewrite Nat.iter_succ_r.
        destruct Hend as [Hend|Hend]; [left; exact Hend|right; lia].
Qed.

End Verilated.


End TestbenchFacts.
